(** * statsd: the asynchronous client (asyncclient.go)

    A shallow embedding of [AsyncClient]: its two buffered channels, the
    metric methods (each a single send of a closure on [requestChan]),
    the worker goroutine [process] and [Close].

    Channels follow the Go language: a send on a closed channel panics,
    a send on a full buffer blocks, a receive takes the oldest value,
    blocks on an empty open channel and reports [open = false] on an
    empty closed one, and closing a closed channel panics.

    The goroutines (any number of callers, the worker, the application
    that reads [ErrorChan]) are interleaved by an executable step
    function, one statement that touches shared state per step.  A
    statement that blocks is a step that is not enabled; an unrecovered
    panic ends the program.  The synchronous client [StatsdClient] is a
    parameter: a state and one operation per method that is called. *)

From Stdlib Require Import List ZArith String Bool Lia PeanoNat.
From Stdlib Require Import Floats.PrimFloat.
Import ListNotations.

Set Implicit Arguments.

(** ** Go's buffered channels *)

Module Chan.

(** [make(chan A, n)]: the buffered values oldest first, the fixed
    capacity and the closed flag. *)
Record chan (A : Type) : Type := Make {
  buf : list A;
  cap : nat;
  closed : bool
}.

Arguments Make {A} _ _ _.

Definition make {A : Type} (n : nat) : chan A :=
  {| buf := []; cap := n; closed := false |}.

(** A send has room while fewer than [cap] values are buffered. *)
Definition full {A : Type} (ch : chan A) : bool :=
  negb (List.length (buf ch) <? cap ch).

Inductive send_result (A : Type) : Type :=
| Sent (ch' : chan A)
| SendBlocks
| SendPanics.

Arguments Sent {A} _.
Arguments SendBlocks {A}.
Arguments SendPanics {A}.

(** [ch <- v]: panics on a closed channel (tested first), blocks on a
    full buffer, appends otherwise. *)
Definition send {A : Type} (ch : chan A) (v : A) : send_result A :=
  if closed ch then SendPanics
  else if full ch then SendBlocks
  else Sent {| buf := buf ch ++ [v]; cap := cap ch; closed := closed ch |}.

Inductive recv_result (A : Type) : Type :=
| Received (v : A) (ch' : chan A)
| RecvClosed
| RecvBlocks.

Arguments Received {A} _ _.
Arguments RecvClosed {A}.
Arguments RecvBlocks {A}.

(** [v, open := <-ch]: the oldest buffered value with [open = true];
    on an empty buffer [open = false] once the channel is closed, and
    the receive blocks while it is open. *)
Definition recv {A : Type} (ch : chan A) : recv_result A :=
  match buf ch with
  | v :: rest => Received v {| buf := rest; cap := cap ch; closed := closed ch |}
  | [] => if closed ch then RecvClosed else RecvBlocks
  end.

(** [close(ch)]: [None] is the panic on closing a closed channel. *)
Definition close {A : Type} (ch : chan A) : option (chan A) :=
  if closed ch then None
  else Some {| buf := buf ch; cap := cap ch; closed := true |}.

End Chan.

Import Chan.

(** ** The synchronous client behind the facade *)

Definition int64 : Type := Z.
Definition float64 : Type := float.
(** [time.Duration] is an [int64] count of nanoseconds. *)
Definition Duration : Type := int64.

(** The methods of [*StatsdClient] that asyncclient.go calls.  [St] is
  the state behind the pointer, [error] the non-nil values of Go's
  [error] interface ([None] is [nil]).  [Event] is a value of the
  interface [event.Event]: it refers to an event that its owner can
  change (the interface has [Update] and [SetKey]); [Mem] is the memory
  those events live in, which [SendEvent] reads through the value it
  is given. *)
Record StatsdClientMethods (error Event Mem St : Type) : Type := {
NewStatsdClient : string -> string -> St;
statsd_CreateSocket : St -> option error * St;
statsd_Incr : string -> int64 -> St -> option error * St;
statsd_Decr : string -> int64 -> St -> option error * St;
statsd_Timing : string -> int64 -> St -> option error * St;
statsd_PrecisionTiming : string -> Duration -> St -> option error * St;
statsd_Gauge : string -> int64 -> St -> option error * St;
statsd_GaugeDelta : string -> int64 -> St -> option error * St;
statsd_FGauge : string -> float64 -> St -> option error * St;
statsd_FGaugeDelta : string -> float64 -> St -> option error * St;
statsd_Absolute : string -> int64 -> St -> option error * St;
statsd_FAbsolute : string -> float64 -> St -> option error * St;
statsd_Total : string -> int64 -> St -> option error * St;
statsd_SendEvent : Event -> Mem -> St -> option error * St;
statsd_Close : St -> option error * St
}.

(** Goroutines that call the facade are named by numbers. *)
Definition tid : Type := nat.

Section AsyncClient.

Variables error Event Mem St : Type.
Variable M : StatsdClientMethods error Event Mem St.

(** The closures sent on [requestChan], one constructor per closure
    literal of the source with the variables it captures. *)
Inductive request : Type :=
| ReqIncr (stat : string) (count : int64)
| ReqDecr (stat : string) (count : int64)
| ReqTiming (stat : string) (delta : int64)
| ReqPrecisionTiming (stat : string) (delta : Duration)
| ReqGauge (stat : string) (value : int64)
| ReqGaugeDelta (stat : string) (value : int64)
| ReqFGauge (stat : string) (value : float64)
| ReqFGaugeDelta (stat : string) (value : float64)
| ReqAbsolute (stat : string) (value : int64)
| ReqFAbsolute (stat : string) (value : float64)
| ReqTotal (stat : string) (value : int64)
| ReqSendEvent (e : Event).

(** [req()]: the body of each closure, run with the events' memory as
    it is then.  Strings and numbers are captured by value; the closure
    of [SendEvent] captures the interface value [e], not a copy of the
    event it refers to. *)
Definition call (req : request) (m : Mem) (st : St) : option error * St :=
  match req with
  | ReqIncr stat count => statsd_Incr M stat count st
  | ReqDecr stat count => statsd_Decr M stat count st
  | ReqTiming stat delta => statsd_Timing M stat delta st
  | ReqPrecisionTiming stat delta => statsd_PrecisionTiming M stat delta st
  | ReqGauge stat value => statsd_Gauge M stat value st
  | ReqGaugeDelta stat value => statsd_GaugeDelta M stat value st
  | ReqFGauge stat value => statsd_FGauge M stat value st
  | ReqFGaugeDelta stat value => statsd_FGaugeDelta M stat value st
  | ReqAbsolute stat value => statsd_Absolute M stat value st
  | ReqFAbsolute stat value => statsd_FAbsolute M stat value st
  | ReqTotal stat value => statsd_Total M stat value st
  | ReqSendEvent e => statsd_SendEvent M e m st
  end.

Record AsyncClient : Type := {
  statsd : St;
  ErrorChan : chan error;
  requestChan : chan request
}.

Definition set_statsd (c : AsyncClient) (st : St) : AsyncClient :=
  {| statsd := st; ErrorChan := ErrorChan c; requestChan := requestChan c |}.

Definition set_ErrorChan (c : AsyncClient) (ch : chan error) : AsyncClient :=
  {| statsd := statsd c; ErrorChan := ch; requestChan := requestChan c |}.

Definition set_requestChan (c : AsyncClient) (ch : chan request) : AsyncClient :=
  {| statsd := statsd c; ErrorChan := ErrorChan c; requestChan := ch |}.

(** *** The metric methods *)

(** What a call of a method without result does to its caller. *)
Inductive call_result : Type :=
| Returns (c' : AsyncClient)
| Blocks
| Panics.

(** [c.requestChan <- req] *)
Definition send_request (req : request) (c : AsyncClient) : call_result :=
  match send (requestChan c) req with
  | Sent ch' => Returns (set_requestChan c ch')
  | SendBlocks => Blocks
  | SendPanics => Panics
  end.

Definition Incr (stat : string) (count : int64) : AsyncClient -> call_result :=
  send_request (ReqIncr stat count).

Definition Decr (stat : string) (count : int64) : AsyncClient -> call_result :=
  send_request (ReqDecr stat count).

Definition Timing (stat : string) (delta : int64) : AsyncClient -> call_result :=
  send_request (ReqTiming stat delta).

Definition PrecisionTiming (stat : string) (delta : Duration)
  : AsyncClient -> call_result :=
  send_request (ReqPrecisionTiming stat delta).

Definition Gauge (stat : string) (value : int64) : AsyncClient -> call_result :=
  send_request (ReqGauge stat value).

Definition GaugeDelta (stat : string) (value : int64) : AsyncClient -> call_result :=
  send_request (ReqGaugeDelta stat value).

Definition FGauge (stat : string) (value : float64) : AsyncClient -> call_result :=
  send_request (ReqFGauge stat value).

Definition FGaugeDelta (stat : string) (value : float64)
  : AsyncClient -> call_result :=
  send_request (ReqFGaugeDelta stat value).

Definition Absolute (stat : string) (value : int64) : AsyncClient -> call_result :=
  send_request (ReqAbsolute stat value).

Definition FAbsolute (stat : string) (value : float64) : AsyncClient -> call_result :=
  send_request (ReqFAbsolute stat value).

Definition Total (stat : string) (value : int64) : AsyncClient -> call_result :=
  send_request (ReqTotal stat value).

Definition SendEvent (e : Event) : AsyncClient -> call_result :=
  send_request (ReqSendEvent e).

(** The method that sends a given closure. *)
Definition method (req : request) : AsyncClient -> call_result :=
  match req with
  | ReqIncr stat count => Incr stat count
  | ReqDecr stat count => Decr stat count
  | ReqTiming stat delta => Timing stat delta
  | ReqPrecisionTiming stat delta => PrecisionTiming stat delta
  | ReqGauge stat value => Gauge stat value
  | ReqGaugeDelta stat value => GaugeDelta stat value
  | ReqFGauge stat value => FGauge stat value
  | ReqFGaugeDelta stat value => FGaugeDelta stat value
  | ReqAbsolute stat value => Absolute stat value
  | ReqFAbsolute stat value => FAbsolute stat value
  | ReqTotal stat value => Total stat value
  | ReqSendEvent e => SendEvent e
  end.

(** [CreateSocket]: delegates to the synchronous client. *)
Definition CreateSocket (c : AsyncClient) : option error * AsyncClient :=
  let (err, st') := statsd_CreateSocket M (statsd c) in
  (err, set_statsd c st').

(** *** The worker goroutine *)

(** Where [process] stands: at the receive of line 130, at [req()] of
    line 136 with the closure received, at the send of line 138 with
    the error to post, or past the [return] of line 133. *)
Inductive worker_pc : Type :=
| AtRecv
| AtCall (req : request)
| AtSend (err : error)
| Returned.

Inductive worker_result : Type :=
| WStep (c' : AsyncClient) (pc' : worker_pc)
| WBlocks
| WPanics
| WHalted.

(** One statement of [process], with the events' memory [m]. *)
Definition process_step (c : AsyncClient) (m : Mem) (pc : worker_pc) : worker_result :=
  match pc with
  | AtRecv =>
      match recv (requestChan c) with
      | Received req ch' => WStep (set_requestChan c ch') (AtCall req)
      | RecvClosed => WStep c Returned
      | RecvBlocks => WBlocks
      end
  | AtCall req =>
      let (err, st') := call req m (statsd c) in
      match err with
      | Some e => WStep (set_statsd c st') (AtSend e)
      | None => WStep (set_statsd c st') AtRecv
      end
  | AtSend e =>
      match send (ErrorChan c) e with
      | Sent ch' => WStep (set_ErrorChan c ch') AtRecv
      | SendBlocks => WBlocks
      | SendPanics => WPanics
      end
  | Returned => WHalted
  end.

(** *** Close *)

(** Where a call of [Close] stands: at [c.statsd.Close()] of line 144
    or at [close(c.requestChan)] of line 148. *)
Inductive close_pc : Type :=
| AtStatsdClose
| AtCloseChan.

Inductive close_result : Type :=
| CloseReturns (err : option error) (c' : AsyncClient)
| CloseGoesOn (c' : AsyncClient)
| ClosePanics.

(** One statement of [Close]. *)
Definition Close_step (c : AsyncClient) (pc : close_pc) : close_result :=
  match pc with
  | AtStatsdClose =>
      let (err, st') := statsd_Close M (statsd c) in
      match err with
      | Some e => CloseReturns (Some e) (set_statsd c st')
      | None => CloseGoesOn (set_statsd c st')
      end
  | AtCloseChan =>
      match close (requestChan c) with
      | Some ch' => CloseReturns None (set_requestChan c ch')
      | None => ClosePanics
      end
  end.

(** [Close] run without another goroutine in between. *)
Definition Close (c : AsyncClient) : close_result :=
  match Close_step c AtStatsdClose with
  | CloseGoesOn c' => Close_step c' AtCloseChan
  | r => r
  end.

(** *** The program: callers, worker and the reader of ErrorChan *)

(** [closing] lists the callers that stand at line 148 of [Close];
    every other caller is between two calls.  [panicked] is set by an
    unrecovered panic, which ends the program.  [events] is the memory
    of the events that the callers pass to [SendEvent]. *)
Record System : Type := {
  client : AsyncClient;
  events : Mem;
  worker : worker_pc;
  closing : list tid;
  panicked : bool
}.

(** [NewAsyncClient]: both channels are made, the worker is started at
    its first receive before the client is returned.  [m] is the
    events' memory of the program at that moment. *)
Definition NewAsyncClient (addr prefix : string) (m : Mem) : System :=
  {| client := {| statsd := NewStatsdClient M addr prefix;
                  ErrorChan := make 100;
                  requestChan := make 1000 |};
     events := m;
     worker := AtRecv;
     closing := [];
     panicked := false |}.

(** What the scheduler picks next: a caller's call of a metric method,
    of [CreateSocket] or of [Close], a caller's change of its events
    (to the memory [m]), the worker's next statement, or the
    application's receive from [ErrorChan]. *)
Inductive action : Type :=
| ACall (t : tid) (req : request)
| ACreateSocket (t : tid)
| AClose (t : tid)
| AMutate (t : tid) (m : Mem)
| AWorker
| AConsume.

(** What a step did. *)
Inductive event : Type :=
| EvEnqueue (t : tid) (req : request)
| EvSendPanic (t : tid) (req : request)
| EvCreateSocket (t : tid) (err : option error)
| EvStatsdClosed (t : tid)
| EvCloseReturn (t : tid) (err : option error)
| EvClosePanic (t : tid)
| EvMutate (t : tid)
| EvDequeue (req : request)
| EvReturn
| EvExec (req : request) (err : option error)
| EvPost (e : error)
| EvWorkerPanic
| EvConsume (e : error).

Definition is_closing (t : tid) (s : System) : bool :=
  existsb (Nat.eqb t) (closing s).

Definition with_client (s : System) (c : AsyncClient) : System :=
  {| client := c; events := events s; worker := worker s;
     closing := closing s; panicked := panicked s |}.

Definition panic (s : System) : System :=
  {| client := client s; events := events s; worker := worker s;
     closing := closing s; panicked := true |}.

(** What the worker's next statement is seen to do. *)
Definition worker_event (c : AsyncClient) (m : Mem) (pc : worker_pc) : event :=
  match pc with
  | AtRecv =>
      match recv (requestChan c) with
      | Received req _ => EvDequeue req
      | _ => EvReturn
      end
  | AtCall req => EvExec req (fst (call req m (statsd c)))
  | AtSend e => EvPost e
  | Returned => EvReturn
  end.

(** One step of the program; [None] when the chosen goroutine is
    blocked (or the choice is no goroutine's next statement). *)
Definition step (s : System) (a : action) : option (event * System) :=
  if panicked s then None
  else
    match a with
    | ACall t req =>
        if is_closing t s then None
        else
          match method req (client s) with
          | Returns c' => Some (EvEnqueue t req, with_client s c')
          | Blocks => None
          | Panics => Some (EvSendPanic t req, panic s)
          end
    | ACreateSocket t =>
        if is_closing t s then None
        else
          let (err, c') := CreateSocket (client s) in
          Some (EvCreateSocket t err, with_client s c')
    | AClose t =>
        if is_closing t s then
          match Close_step (client s) AtCloseChan with
          | CloseReturns err c' =>
              Some (EvCloseReturn t err,
                    {| client := c'; events := events s; worker := worker s;
                       closing := filter (fun u => negb (Nat.eqb t u)) (closing s);
                       panicked := panicked s |})
          | CloseGoesOn c' => None
          | ClosePanics => Some (EvClosePanic t, panic s)
          end
        else
          match Close_step (client s) AtStatsdClose with
          | CloseReturns err c' => Some (EvCloseReturn t err, with_client s c')
          | CloseGoesOn c' =>
              Some (EvStatsdClosed t,
                    {| client := c'; events := events s; worker := worker s;
                       closing := t :: closing s;
                       panicked := panicked s |})
          | ClosePanics => None
          end
    | AMutate t m =>
        if is_closing t s then None
        else
          Some (EvMutate t,
                {| client := client s; events := m; worker := worker s;
                   closing := closing s; panicked := panicked s |})
    | AWorker =>
        match process_step (client s) (events s) (worker s) with
        | WStep c' pc' =>
            Some (worker_event (client s) (events s) (worker s),
                  {| client := c'; events := events s; worker := pc';
                     closing := closing s; panicked := panicked s |})
        | WBlocks => None
        | WPanics => Some (EvWorkerPanic, panic s)
        | WHalted => None
        end
    | AConsume =>
        match recv (ErrorChan (client s)) with
        | Received e ch' => Some (EvConsume e, with_client s (set_ErrorChan (client s) ch'))
        | _ => None
        end
    end.

(** Runs from a fresh client, whatever the events' memory then, with
    what they did, oldest first. *)
Inductive run (addr prefix : string) : list event -> System -> Prop :=
| run_new m : run addr prefix [] (NewAsyncClient addr prefix m)
| run_step tr s a ev s' :
    run addr prefix tr s ->
    step s a = Some (ev, s') ->
    run addr prefix (tr ++ [ev]) s'.

(** The same, computed from the scheduler's choices. *)
Fixpoint exec (s : System) (acts : list action) : option (list event * System) :=
  match acts with
  | [] => Some ([], s)
  | a :: acts' =>
      match step s a with
      | Some (ev, s') =>
          match exec s' acts' with
          | Some (tr, s'') => Some (ev :: tr, s'')
          | None => None
          end
      | None => None
      end
  end.

(** The steps of the worker and of the application that reads
    ErrorChan: the schedules that let the pipeline drain. *)
Definition quiet (a : action) : Prop := a = AWorker \/ a = AConsume.

(** *** What a run did *)

(** The closures sent on [requestChan], in the order of the sends. *)
Definition enqueued (tr : list event) : list request :=
  flat_map (fun ev => match ev with EvEnqueue _ req => [req] | _ => [] end) tr.

(** The metric calls of caller [t] that returned, in the order of the calls. *)
Definition calls_by (t : tid) (tr : list event) : list request :=
  flat_map (fun ev =>
              match ev with
              | EvEnqueue u req => if Nat.eqb u t then [req] else []
              | _ => []
              end) tr.

(** The closures the worker received. *)
Definition dequeued (tr : list event) : list request :=
  flat_map (fun ev => match ev with EvDequeue req => [req] | _ => [] end) tr.

(** The closures the worker ran, each with what it returned. *)
Definition executed (tr : list event) : list (request * option error) :=
  flat_map (fun ev => match ev with EvExec req err => [(req, err)] | _ => [] end) tr.

(** The errors among the results, in the order of the calls. *)
Definition failures (l : list (request * option error)) : list error :=
  flat_map (fun p => match snd p with Some e => [e] | None => [] end) l.

(** The errors the worker sent on [ErrorChan]. *)
Definition posted (tr : list event) : list error :=
  flat_map (fun ev => match ev with EvPost e => [e] | _ => [] end) tr.

(** The errors the application received from [ErrorChan]. *)
Definition consumed (tr : list event) : list error :=
  flat_map (fun ev => match ev with EvConsume e => [e] | _ => [] end) tr.

(** The closure received and not yet run. *)
Definition inflight (pc : worker_pc) : list request :=
  match pc with
  | AtCall req => [req]
  | _ => []
  end.

(** The error returned and not yet sent. *)
Definition pending_post (pc : worker_pc) : list error :=
  match pc with
  | AtSend e => [e]
  | _ => []
  end.

(** What holds of every run from a fresh client. *)
Record invariant (tr : list event) (s : System) : Prop := {
  inv_fifo : enqueued tr = dequeued tr ++ buf (requestChan (client s));
  inv_exec : dequeued tr = map fst (executed tr) ++ inflight (worker s);
  inv_post : failures (executed tr) = posted tr ++ pending_post (worker s);
  inv_errs : posted tr = consumed tr ++ buf (ErrorChan (client s));
  inv_req_cap : cap (requestChan (client s)) = 1000;
  inv_err_cap : cap (ErrorChan (client s)) = 100;
  inv_req_len : List.length (buf (requestChan (client s))) <= 1000;
  inv_err_len : List.length (buf (ErrorChan (client s))) <= 100;
  inv_err_open : closed (ErrorChan (client s)) = false;
  inv_returned :
    worker s = Returned ->
    closed (requestChan (client s)) = true /\ buf (requestChan (client s)) = [];
  inv_closed :
    closed (requestChan (client s)) = true <->
    exists t, In (EvCloseReturn t None) tr
}.

(** *** Callers and the synchronous client in a run *)

(** The sends on [requestChan] with their callers, in the order of the
    sends. *)
Definition sent (tr : list event) : list (tid * request) :=
  flat_map (fun ev => match ev with EvEnqueue t req => [(t, req)] | _ => [] end) tr.

(** The closures of caller [t] among sends. *)
Definition of_caller (t : tid) (l : list (tid * request)) : list request :=
  map snd (filter (fun p => Nat.eqb (fst p) t) l).

(** The calls of [t] among the sends the worker has run so far (the
    first as many sends as closures were run), and among the others. *)
Definition ran_by (t : tid) (tr : list event) : list request :=
  of_caller t (firstn (List.length (executed tr)) (sent tr)).

Definition pending_by (t : tid) (tr : list event) : list request :=
  of_caller t (skipn (List.length (executed tr)) (sent tr)).

(** What a caller of the synchronous client does in place of each
    method of the asynchronous one: the method of the same name on the
    same arguments, [SendEvent] reading the events' memory [m] of that
    moment. *)
Definition direct (req : request) (m : Mem) (st : St) : option error * St :=
  match req with
  | ReqIncr stat count => statsd_Incr M stat count st
  | ReqDecr stat count => statsd_Decr M stat count st
  | ReqTiming stat delta => statsd_Timing M stat delta st
  | ReqPrecisionTiming stat delta => statsd_PrecisionTiming M stat delta st
  | ReqGauge stat value => statsd_Gauge M stat value st
  | ReqGaugeDelta stat value => statsd_GaugeDelta M stat value st
  | ReqFGauge stat value => statsd_FGauge M stat value st
  | ReqFGaugeDelta stat value => statsd_FGaugeDelta M stat value st
  | ReqAbsolute stat value => statsd_Absolute M stat value st
  | ReqFAbsolute stat value => statsd_FAbsolute M stat value st
  | ReqTotal stat value => statsd_Total M stat value st
  | ReqSendEvent e => statsd_SendEvent M e m st
  end.

(** These calls made one after the other by a single goroutine while
    the events' memory stays [m], with what each returned. *)
Fixpoint direct_all (reqs : list request) (m : Mem) (st : St)
  : list (option error) * St :=
  match reqs with
  | [] => ([], st)
  | req :: reqs' =>
      let (err, st1) := direct req m st in
      let (errs, st2) := direct_all reqs' m st1 in
      (err :: errs, st2)
  end.

(** The events of a caller inside [CreateSocket] or [Close]. *)
Definition is_lifecycle (ev : event) : bool :=
  match ev with
  | EvCreateSocket _ _ | EvStatsdClosed _ | EvCloseReturn _ _ | EvClosePanic _ => true
  | _ => false
  end.

(** The events of a caller that changes its events. *)
Definition is_mutate (ev : event) : bool :=
  match ev with
  | EvMutate _ => true
  | _ => false
  end.

(** The events of a panic. *)
Definition is_panic (ev : event) : bool :=
  match ev with
  | EvSendPanic _ _ | EvClosePanic _ | EvWorkerPanic => true
  | _ => false
  end.

(** What a run says of panics: none while the program runs; once it has
    panicked, the panic is the last event, the only one, and the Work
    Queue had been closed. *)
Definition panic_free (tr : list event) (s : System) : Prop :=
  if panicked s
  then exists tr0 ev, tr = tr0 ++ [ev] /\ is_panic ev = true /\
                      existsb is_panic tr0 = false /\
                      closed (requestChan (client s)) = true
  else existsb is_panic tr = false.

(** The returns of [Close] with nil. *)
Definition closes (tr : list event) : list tid :=
  flat_map (fun ev => match ev with EvCloseReturn t None => [t] | _ => [] end) tr.

End AsyncClient.

Arguments ReqIncr {Event} _ _.
Arguments ReqDecr {Event} _ _.
Arguments ReqTiming {Event} _ _.
Arguments ReqPrecisionTiming {Event} _ _.
Arguments ReqGauge {Event} _ _.
Arguments ReqGaugeDelta {Event} _ _.
Arguments ReqFGauge {Event} _ _.
Arguments ReqFGaugeDelta {Event} _ _.
Arguments ReqAbsolute {Event} _ _.
Arguments ReqFAbsolute {Event} _ _.
Arguments ReqTotal {Event} _ _.
Arguments ReqSendEvent {Event} _.
Arguments Returns {error Event St} _.
Arguments Blocks {error Event St}.
Arguments Panics {error Event St}.
Arguments AtRecv {error Event}.
Arguments AtCall {error Event} _.
Arguments AtSend {error Event} _.
Arguments Returned {error Event}.
Arguments WStep {error Event St} _ _.
Arguments WBlocks {error Event St}.
Arguments WPanics {error Event St}.
Arguments WHalted {error Event St}.
Arguments CloseReturns {error Event St} _ _.
Arguments CloseGoesOn {error Event St} _.
Arguments ClosePanics {error Event St}.
Arguments ACall {Event Mem} _ _.
Arguments ACreateSocket {Event Mem} _.
Arguments AClose {Event Mem} _.
Arguments AMutate {Event Mem} _ _.
Arguments AWorker {Event Mem}.
Arguments AConsume {Event Mem}.
Arguments EvEnqueue {error Event} _ _.
Arguments EvSendPanic {error Event} _ _.
Arguments EvCreateSocket {error Event} _ _.
Arguments EvStatsdClosed {error Event} _.
Arguments EvCloseReturn {error Event} _ _.
Arguments EvClosePanic {error Event} _.
Arguments EvMutate {error Event} _.
Arguments EvDequeue {error Event} _.
Arguments EvReturn {error Event}.
Arguments EvExec {error Event} _ _.
Arguments EvPost {error Event} _.
Arguments EvWorkerPanic {error Event}.
Arguments EvConsume {error Event} _.
Arguments quiet {Event Mem} _.
Arguments is_panic {error Event} _.
Arguments is_lifecycle {error Event} _.
Arguments is_mutate {error Event} _.

(** ** Two synchronous clients to run the program with *)

(** A client that keeps every call it receives, oldest first, and
    never fails. *)
Definition recording : StatsdClientMethods string string unit (list (request string)) :=
  {| NewStatsdClient := fun _ _ => [];
     statsd_CreateSocket := fun st => (None, st);
     statsd_Incr := fun stat count st => (None, st ++ [ReqIncr stat count]);
     statsd_Decr := fun stat count st => (None, st ++ [ReqDecr stat count]);
     statsd_Timing := fun stat delta st => (None, st ++ [ReqTiming stat delta]);
     statsd_PrecisionTiming :=
       fun stat delta st => (None, st ++ [ReqPrecisionTiming stat delta]);
     statsd_Gauge := fun stat value st => (None, st ++ [ReqGauge stat value]);
     statsd_GaugeDelta := fun stat value st => (None, st ++ [ReqGaugeDelta stat value]);
     statsd_FGauge := fun stat value st => (None, st ++ [ReqFGauge stat value]);
     statsd_FGaugeDelta := fun stat value st => (None, st ++ [ReqFGaugeDelta stat value]);
     statsd_Absolute := fun stat value st => (None, st ++ [ReqAbsolute stat value]);
     statsd_FAbsolute := fun stat value st => (None, st ++ [ReqFAbsolute stat value]);
     statsd_Total := fun stat value st => (None, st ++ [ReqTotal stat value]);
     statsd_SendEvent := fun e _ st => (None, st ++ [ReqSendEvent e]);
     statsd_Close := fun st => (None, st) |}.

(** A client whose every operation fails with the error [E]. *)
Definition failing (E : string) : StatsdClientMethods string string unit unit :=
  {| NewStatsdClient := fun _ _ => tt;
     statsd_CreateSocket := fun st => (Some E, st);
     statsd_Incr := fun _ _ st => (Some E, st);
     statsd_Decr := fun _ _ st => (Some E, st);
     statsd_Timing := fun _ _ st => (Some E, st);
     statsd_PrecisionTiming := fun _ _ st => (Some E, st);
     statsd_Gauge := fun _ _ st => (Some E, st);
     statsd_GaugeDelta := fun _ _ st => (Some E, st);
     statsd_FGauge := fun _ _ st => (Some E, st);
     statsd_FGaugeDelta := fun _ _ st => (Some E, st);
     statsd_Absolute := fun _ _ st => (Some E, st);
     statsd_FAbsolute := fun _ _ st => (Some E, st);
     statsd_Total := fun _ _ st => (Some E, st);
     statsd_SendEvent := fun _ _ st => (Some E, st);
     statsd_Close := fun st => (Some E, st) |}.

(** A client that keeps what it would send, oldest first: the name of
    the stat for a metric, and for an event what the events' memory
    holds for it when [SendEvent] runs.  An event is a number, the
    memory gives each its text. *)
Definition event_reader : StatsdClientMethods string nat (nat -> string) (list string) :=
  {| NewStatsdClient := fun _ _ => [];
     statsd_CreateSocket := fun st => (None, st);
     statsd_Incr := fun stat _ st => (None, st ++ [stat]);
     statsd_Decr := fun stat _ st => (None, st ++ [stat]);
     statsd_Timing := fun stat _ st => (None, st ++ [stat]);
     statsd_PrecisionTiming := fun stat _ st => (None, st ++ [stat]);
     statsd_Gauge := fun stat _ st => (None, st ++ [stat]);
     statsd_GaugeDelta := fun stat _ st => (None, st ++ [stat]);
     statsd_FGauge := fun stat _ st => (None, st ++ [stat]);
     statsd_FGaugeDelta := fun stat _ st => (None, st ++ [stat]);
     statsd_Absolute := fun stat _ st => (None, st ++ [stat]);
     statsd_FAbsolute := fun stat _ st => (None, st ++ [stat]);
     statsd_Total := fun stat _ st => (None, st ++ [stat]);
     statsd_SendEvent := fun e m st => (None, st ++ [m e]);
     statsd_Close := fun st => (None, st) |}.

(** [SendEvent] of event 7 by caller 0, who then changes the event
    before the worker runs the call. *)
Definition event_changed_after_call : list (action nat (nat -> string)) :=
  [ACall 0 (ReqSendEvent 7);
   AMutate 0 (fun _ => "after"%string);
   AWorker; AWorker].

(** A counter and event 7 sent by caller 0 and run by the worker, the
    event left as it is. *)
Definition event_unchanged : list (action nat (nat -> string)) :=
  [ACall 0 (ReqIncr "requests" 1%Z); ACall 0 (ReqSendEvent 7);
   AWorker; AWorker; AWorker; AWorker].

(** Five calls by caller 0, then the first statement of its Close. *)
Definition five_queued_in_close : list (action string unit) :=
  map (ACall 0) [ReqIncr "a" 1%Z; ReqDecr "b" 2%Z; ReqGauge "c" 3%Z;
                 ReqFGauge "d" 0.5%float; ReqSendEvent "e"%string]
  ++ [AClose 0].

(** Two callers in Close at once: both pass [statsd.Close], caller 1
    closes the queue first. *)
Definition two_closers : list (action string unit) :=
  [AClose 0; AClose 1; AClose 1; AClose 0].

(** [Incr], [Gauge] and [Timing] called by caller 0, then six statements
    of the worker. *)
Definition three_calls : list (action string unit) :=
  [ACall 0 (ReqIncr "requests" 1%Z);
   ACall 0 (ReqGauge "temp" 42%Z);
   ACall 0 (ReqTiming "latency" 150%Z);
   AWorker; AWorker; AWorker; AWorker; AWorker; AWorker].

(** The same three calls, then nine statements of the worker. *)
Definition three_failing_calls : list (action string unit) :=
  [ACall 0 (ReqIncr "requests" 1%Z);
   ACall 0 (ReqGauge "temp" 42%Z);
   ACall 0 (ReqTiming "latency" 150%Z);
   AWorker; AWorker; AWorker; AWorker; AWorker; AWorker; AWorker; AWorker; AWorker].

Definition five_calls : list (request string) :=
  [ReqIncr "a" 1%Z; ReqDecr "b" 2%Z; ReqGauge "c" 3%Z;
   ReqFGauge "d" 0.5%float; ReqSendEvent "e"%string].

(** Five calls, then Close while they are all still buffered, then the
    worker until it has returned. *)
Definition close_with_five_queued : list (action string unit) :=
  map (ACall 0) five_calls ++ [AClose 0; AClose 0] ++ repeat AWorker 11.

(** A thousand calls with the worker never scheduled. *)
Definition fill_queue : list (action string unit) :=
  repeat (ACall 0 (ReqIncr "requests" 1%Z)) 1000.

(** The same, then Close. *)
Definition fill_queue_and_close : list (action string unit) :=
  fill_queue ++ [AClose 0; AClose 0].

(** A hundred failing calls, each run and its error posted, and one more
    run with nobody receiving from ErrorChan. *)
Definition fill_ErrorChan : list (action string unit) :=
  flat_map (fun _ => [ACall 0 (ReqIncr "requests" 1%Z); AWorker; AWorker; AWorker])
           (seq 0 100)
  ++ [ACall 0 (ReqIncr "requests" 1%Z); AWorker; AWorker].


(** Two callers whose calls alternate, then the worker for the first
    two closures. *)
Definition two_callers : list (action string unit) :=
  [ACall 0 (ReqIncr "a" 1%Z); ACall 1 (ReqIncr "b" 2%Z);
   ACall 0 (ReqDecr "a" 3%Z); ACall 1 (ReqDecr "b" 4%Z);
   AWorker; AWorker; AWorker; AWorker].

(** A metric call after a Close that returned nil. *)
Definition call_after_close : list (action string unit) :=
  [AClose 0; AClose 0; ACall 0 (ReqIncr "requests" 1%Z)].

(** A client with one call buffered and the worker at its receive. *)
Definition one_queued : System string string unit (list (request string)) :=
  {| client := {| statsd := [];
                  ErrorChan := make 100;
                  requestChan := {| buf := [ReqIncr "requests" 1%Z];
                                    cap := 1000;
                                    closed := false |} |};
     events := tt;
     worker := AtRecv;
     closing := [];
     panicked := false |}.

(** Close called once: its two statements. *)
Definition close_once : list (action string unit) := [AClose 0; AClose 0].

(** ** Proofs *)

Unset Implicit Arguments.

Section Proofs.

Variables error Event Mem St : Type.
Variable M : StatsdClientMethods error Event Mem St.

(** Every metric method is the send of its closure. *)
Lemma method_send_request (req : request Event) (c : AsyncClient error Event St) :
  method req c = send_request req c.
Proof. destruct req; reflexivity. Qed.

Lemma send_request_Returns (req : request Event) (c c' : AsyncClient error Event St) :
  send_request req c = Returns c' <->
  closed (requestChan c) = false /\ full (requestChan c) = false /\
  c' = set_requestChan c {| buf := buf (requestChan c) ++ [req];
                            cap := cap (requestChan c);
                            closed := false |}.
Proof.
  unfold send_request, send.
  destruct (closed (requestChan c)) eqn:Hc; [ split; [ discriminate | intros [? _]; discriminate ] | ].
  destruct (full (requestChan c)) eqn:Hf; [ split; [ discriminate | intros (_ & ? & _); discriminate ] | ].
  split.
  - intros H; inversion H; auto.
  - intros (_ & _ & ->); reflexivity.
Qed.

Lemma send_request_Blocks (req : request Event) (c : AsyncClient error Event St) :
  send_request req c = Blocks <->
  closed (requestChan c) = false /\ full (requestChan c) = true.
Proof.
  unfold send_request, send.
  destruct (closed (requestChan c)), (full (requestChan c));
    split; try discriminate; try tauto; intros [? ?]; discriminate.
Qed.

Lemma send_request_Panics (req : request Event) (c : AsyncClient error Event St) :
  send_request req c = Panics <-> closed (requestChan c) = true.
Proof.
  unfold send_request, send.
  destruct (closed (requestChan c)), (full (requestChan c));
    split; try discriminate; auto.
Qed.

Lemma full_length (A : Type) (ch : chan A) :
  full ch = true <-> cap ch <= List.length (buf ch).
Proof.
  unfold full. rewrite negb_true_iff, Nat.ltb_ge. tauto.
Qed.

Lemma not_full_length (A : Type) (ch : chan A) :
  full ch = false <-> List.length (buf ch) < cap ch.
Proof.
  unfold full. rewrite negb_false_iff, Nat.ltb_lt. tauto.
Qed.

Ltac head_scrutinee t :=
  lazymatch t with
  | match ?x with _ => _ end => head_scrutinee x
  | _ => t
  end.

Ltac head_case H :=
  lazymatch type of H with
  | match ?x with _ => _ end = _ =>
      let y := head_scrutinee x in
      destruct y eqn:?; cbv beta iota in H
  end.

(** Splits a step into the statement it ran and the branch it took. *)
Ltac step_cases H :=
  unfold step in H;
  match type of H with
  | context [panicked ?s] => destruct (panicked s) eqn:?; [ discriminate H | ]
  end;
  try match type of H with
    | match ?a with _ => _ end = _ => is_var a; destruct a
    end;
  cbv beta iota in H;
  rewrite ?method_send_request in H;
  unfold send_request, CreateSocket, Close_step, process_step, worker_event,
    send, recv, close in H;
  repeat head_case H;
  cbn [fst] in H;
  try discriminate H; inversion H; subst; clear H.

Lemma enqueued_snoc (tr : list (event error Event)) ev :
  enqueued (tr ++ [ev]) =
  enqueued tr ++ match ev with EvEnqueue _ req => [req] | _ => [] end.
Proof. unfold enqueued. rewrite flat_map_app. cbn. now rewrite app_nil_r. Qed.

Lemma dequeued_snoc (tr : list (event error Event)) ev :
  dequeued (tr ++ [ev]) =
  dequeued tr ++ match ev with EvDequeue req => [req] | _ => [] end.
Proof. unfold dequeued. rewrite flat_map_app. cbn. now rewrite app_nil_r. Qed.

Lemma executed_snoc (tr : list (event error Event)) ev :
  executed (tr ++ [ev]) =
  executed tr ++ match ev with EvExec req err => [(req, err)] | _ => [] end.
Proof. unfold executed. rewrite flat_map_app. cbn. now rewrite app_nil_r. Qed.

Lemma posted_snoc (tr : list (event error Event)) ev :
  posted (tr ++ [ev]) =
  posted tr ++ match ev with EvPost e => [e] | _ => [] end.
Proof. unfold posted. rewrite flat_map_app. cbn. now rewrite app_nil_r. Qed.

Lemma consumed_snoc (tr : list (event error Event)) ev :
  consumed (tr ++ [ev]) =
  consumed tr ++ match ev with EvConsume e => [e] | _ => [] end.
Proof. unfold consumed. rewrite flat_map_app. cbn. now rewrite app_nil_r. Qed.

Lemma failures_app (l1 l2 : list (request Event * option error)) :
  failures (l1 ++ l2) = failures l1 ++ failures l2.
Proof. apply flat_map_app. Qed.

Ltac snoc_events :=
  rewrite ?enqueued_snoc, ?dequeued_snoc, ?executed_snoc, ?posted_snoc,
    ?consumed_snoc, ?failures_app, ?map_app;
  cbn [failures flat_map map fst snd app set_statsd set_requestChan set_ErrorChan
       with_client panic client worker closing panicked
       statsd requestChan ErrorChan buf cap closed inflight pending_post];
  rewrite ?app_nil_r.

Ltac use_equations :=
  repeat match goal with
    | H : ?x = _ |- context [?x] => rewrite H
    end.

Lemma closed_by_snoc (tr : list (event error Event)) ev (b : bool) :
  (b = true <-> exists t, In (EvCloseReturn t None) tr) ->
  (forall t, ev <> EvCloseReturn t None) ->
  b = true <-> exists t, In (EvCloseReturn t None) (tr ++ [ev]).
Proof.
  intros H Hev. rewrite H. split; intros [t Ht]; exists t.
  - apply in_or_app; auto.
  - apply in_app_or in Ht. destruct Ht as [Ht | [Ht | []]]; [ assumption | ].
    now apply Hev in Ht.
Qed.

Ltac finish_invariant :=
  cbn [inflight pending_post List.length] in *; rewrite ?app_nil_r in *;
  repeat match goal with
    | H : full _ = false |- _ => apply not_full_length in H
    end;
  first
    [ assumption
    | rewrite ?length_app; cbn [List.length]; lia
    | apply closed_by_snoc; [ assumption | discriminate ]
    | split; [ intros _; eexists; apply in_or_app; right; left; reflexivity
             | reflexivity ]
    | match goal with
      | H : _ = _ |- _ => rewrite H; rewrite <- ?app_assoc; reflexivity
      end
    | rewrite <- ?app_assoc; reflexivity
    | intuition congruence ].

Lemma step_invariant tr s a ev s' :
  invariant tr s -> step M s a = Some (ev, s') -> invariant (tr ++ [ev]) s'.
Proof.
  intros [] Hs.
  step_cases Hs.
  all: constructor; snoc_events; use_equations.
  all: finish_invariant.
Qed.

Lemma new_invariant addr prefix m : invariant [] (NewAsyncClient M addr prefix m).
Proof.
  constructor; cbn; try reflexivity; try lia.
  - discriminate.
  - split; [ discriminate | intros [_ []] ].
Qed.

Lemma run_invariant addr prefix tr s : run M addr prefix tr s -> invariant tr s.
Proof.
  induction 1 as [ | tr s a ev s' _ IH Hs ].
  - apply new_invariant.
  - eapply step_invariant; eassumption.
Qed.

Lemma run_exec addr prefix tr s acts tr' s' :
  run M addr prefix tr s -> exec M s acts = Some (tr', s') ->
  run M addr prefix (tr ++ tr') s'.
Proof.
  revert tr s tr'.
  induction acts as [ | a acts IH ]; cbn; intros tr s tr' Hr He.
  - inversion He; subst. now rewrite app_nil_r.
  - destruct (step M s a) as [ [ev s1] | ] eqn:Hs; [ | discriminate ].
    destruct (exec M s1 acts) as [ [tr1 s2] | ] eqn:He1; [ | discriminate ].
    inversion He; subst.
    replace (tr ++ ev :: tr1) with ((tr ++ [ev]) ++ tr1)
      by (rewrite <- app_assoc; reflexivity).
    eapply IH; [ | eassumption ].
    econstructor; eassumption.
Qed.

Lemma exec_run addr prefix m acts tr s :
  exec M (NewAsyncClient M addr prefix m) acts = Some (tr, s) ->
  run M addr prefix tr s.
Proof.
  intros He. apply (run_exec addr prefix [] _ acts tr s (run_new M addr prefix m) He).
Qed.

Lemma run_snoc_inv addr prefix tr ev s' :
  run M addr prefix (tr ++ [ev]) s' ->
  exists s a, run M addr prefix tr s /\ step M s a = Some (ev, s').
Proof.
  intros H. inversion H as [ Hnil | tr0 s a ev0 s0 Hr Hs Heq ]; subst.
  - destruct tr; discriminate.
  - apply app_inj_tail in Heq. destruct Heq; subst. eauto.
Qed.

(** What each kind of event says of the step that made it. *)

Lemma step_enqueue s a t req s' :
  step M s a = Some (EvEnqueue t req, s') ->
  a = ACall t req /\ closed (requestChan (client s)) = false /\
  full (requestChan (client s)) = false /\
  buf (requestChan (client s')) = buf (requestChan (client s)) ++ [req] /\
  worker s' = worker s.
Proof. intros Hs. step_cases Hs. cbn. repeat split; congruence. Qed.

Lemma step_dequeue s a req s' :
  step M s a = Some (EvDequeue req, s') ->
  a = AWorker /\ worker s = AtRecv /\ worker s' = AtCall req /\
  buf (requestChan (client s)) = req :: buf (requestChan (client s')) /\
  closed (requestChan (client s')) = closed (requestChan (client s)) /\
  ErrorChan (client s') = ErrorChan (client s).
Proof. intros Hs. step_cases Hs. cbn. repeat split; congruence. Qed.

Lemma step_exec s a req err s' :
  step M s a = Some (EvExec req err, s') ->
  a = AWorker /\ worker s = AtCall req /\
  call M req (events s) (statsd (client s)) = (err, statsd (client s')) /\
  worker s' = match err with Some e => AtSend e | None => AtRecv end /\
  requestChan (client s') = requestChan (client s) /\
  ErrorChan (client s') = ErrorChan (client s).
Proof. intros Hs. step_cases Hs; cbn; repeat split; congruence. Qed.

Lemma step_post s a e s' :
  step M s a = Some (EvPost e, s') ->
  a = AWorker /\ worker s = AtSend e /\ worker s' = AtRecv /\
  full (ErrorChan (client s)) = false /\
  buf (ErrorChan (client s')) = buf (ErrorChan (client s)) ++ [e] /\
  requestChan (client s') = requestChan (client s).
Proof. intros Hs. step_cases Hs; cbn; repeat split; congruence. Qed.

Lemma step_close_return_nil s a t s' :
  step M s a = Some (EvCloseReturn t None, s') ->
  a = AClose t /\ is_closing t s = true /\
  closed (requestChan (client s)) = false /\
  closed (requestChan (client s')) = true /\
  buf (requestChan (client s')) = buf (requestChan (client s)) /\
  ErrorChan (client s') = ErrorChan (client s) /\
  statsd (client s') = statsd (client s) /\
  worker s' = worker s.
Proof. intros Hs. step_cases Hs; cbn; repeat split; congruence. Qed.


(** A closed channel stays closed. *)
Lemma step_closed_stable s a ev s' :
  step M s a = Some (ev, s') ->
  closed (requestChan (client s)) = true ->
  closed (requestChan (client s')) = true.
Proof. intros Hs Hc. step_cases Hs; cbn; congruence. Qed.


Lemma calls_by_single t (tr : list (event error Event)) :
  (forall u req, In (EvEnqueue u req) tr -> u = t) ->
  calls_by t tr = enqueued tr.
Proof.
  induction tr as [ | ev tr IH ]; intros Hall; [ reflexivity | ].
  unfold calls_by, enqueued in *. cbn [flat_map].
  rewrite IH by (intros u req Hin; apply (Hall u req); now right).
  destruct ev; try reflexivity.
  rewrite (Hall t0 req) by now left.
  now rewrite Nat.eqb_refl.
Qed.

(** First in, first out: the closures sent are those run, then the one
    in the worker's hand, then those still buffered. *)
Lemma run_fifo addr prefix tr s :
  run M addr prefix tr s ->
  enqueued tr =
  map fst (executed tr) ++ inflight (worker s) ++ buf (requestChan (client s)).
Proof.
  intros Hr. apply run_invariant in Hr. destruct Hr.
  rewrite inv_fifo0, inv_exec0. now rewrite app_assoc.
Qed.

Lemma closed_no_enqueue s a ev s' :
  step M s a = Some (ev, s') ->
  closed (requestChan (client s)) = true ->
  enqueued [ev] = [].
Proof.
  intros Hs Hc. destruct ev; try reflexivity.
  apply step_enqueue in Hs. destruct Hs as (_ & Ho & _). congruence.
Qed.

Lemma no_enqueue_after_close addr prefix tr1 t tr2 s :
  run M addr prefix (tr1 ++ EvCloseReturn t None :: tr2) s ->
  enqueued tr2 = [].
Proof.
  revert s. induction tr2 as [ | ev tr2 IH ] using rev_ind; intros s Hr.
  - reflexivity.
  - change (tr1 ++ EvCloseReturn t None :: tr2 ++ [ev])
      with (tr1 ++ (EvCloseReturn t None :: tr2) ++ [ev]) in Hr.
    rewrite app_assoc in Hr. apply run_snoc_inv in Hr.
    destruct Hr as (s0 & a & Hr & Hs).
    rewrite enqueued_snoc, (IH _ Hr). cbn [app].
    assert (Hc : closed (requestChan (client s0)) = true).
    { apply (inv_closed (run_invariant _ _ _ _ Hr)). exists t.
      apply in_or_app. right. now left. }
    pose proof (closed_no_enqueue _ _ _ _ Hs Hc) as Hn.
    unfold enqueued in Hn. cbn in Hn. now rewrite app_nil_r in Hn.
Qed.

(** The worker's next statement, when it is not blocked. *)

Lemma worker_receives s req rest :
  panicked s = false -> worker s = AtRecv ->
  buf (requestChan (client s)) = req :: rest ->
  exists s', step M s AWorker = Some (EvDequeue req, s') /\
             worker s' = AtCall req /\
             buf (requestChan (client s')) = rest.
Proof.
  intros Hp Hw Hb. unfold step, process_step, worker_event, recv.
  rewrite Hp, Hw, Hb. eexists. split; [ reflexivity | cbn; auto ].
Qed.

Lemma worker_returns s :
  panicked s = false -> worker s = AtRecv ->
  buf (requestChan (client s)) = [] ->
  closed (requestChan (client s)) = true ->
  exists s', step M s AWorker = Some (EvReturn, s') /\ worker s' = Returned.
Proof.
  intros Hp Hw Hb Hc. unfold step, process_step, worker_event, recv.
  rewrite Hp, Hw, Hb, Hc. eexists. split; [ reflexivity | cbn; auto ].
Qed.

Lemma worker_calls s req :
  panicked s = false -> worker s = AtCall req ->
  exists err s', step M s AWorker = Some (EvExec req err, s') /\
                 call M req (events s) (statsd (client s)) = (err, statsd (client s')) /\
                 worker s' = match err with Some e => AtSend e | None => AtRecv end.
Proof.
  intros Hp Hw. unfold step, process_step, worker_event.
  rewrite Hp, Hw.
  destruct (call M req (events s) (statsd (client s))) as [ [e | ] st' ] eqn:Hc;
    do 2 eexists; (split; [ reflexivity | cbn; auto ]).
Qed.

Lemma worker_posts s e :
  panicked s = false -> worker s = AtSend e ->
  closed (ErrorChan (client s)) = false ->
  full (ErrorChan (client s)) = false ->
  exists s', step M s AWorker = Some (EvPost e, s') /\
             worker s' = AtRecv /\
             buf (ErrorChan (client s')) = buf (ErrorChan (client s)) ++ [e].
Proof.
  intros Hp Hw Hc Hf. unfold step, process_step, worker_event, send.
  rewrite Hp, Hw, Hc, Hf. eexists. split; [ reflexivity | cbn; auto ].
Qed.

Lemma step_consume s a e s' :
  step M s a = Some (EvConsume e, s') ->
  a = AConsume /\ worker s' = worker s /\
  buf (ErrorChan (client s)) = e :: buf (ErrorChan (client s')) /\
  cap (ErrorChan (client s')) = cap (ErrorChan (client s)) /\
  closed (ErrorChan (client s')) = closed (ErrorChan (client s)) /\
  requestChan (client s') = requestChan (client s).
Proof. intros Hs. step_cases Hs; cbn; repeat split; congruence. Qed.

Lemma exec_app acts1 : forall s tr1 s1 acts2 tr2 s2,
  exec M s acts1 = Some (tr1, s1) ->
  exec M s1 acts2 = Some (tr2, s2) ->
  exec M s (acts1 ++ acts2) = Some (tr1 ++ tr2, s2).
Proof.
  induction acts1 as [ | a acts1 IH ]; cbn [exec app]; intros s tr1 s1 acts2 tr2 s2 H1 H2.
  - inversion H1; subst. assumption.
  - destruct (step M s a) as [ [ev s0] | ]; [ | discriminate ].
    destruct (exec M s0 acts1) as [ [tr0 s0'] | ] eqn:He; [ | discriminate ].
    inversion H1; subst.
    now rewrite (IH _ _ _ _ _ _ He H2).
Qed.

Lemma exec_one s a ev s' :
  step M s a = Some (ev, s') -> exec M s [a] = Some ([ev], s').
Proof. intros Hs. cbn. now rewrite Hs. Qed.

Lemma quiet_step s a ev s' :
  step M s a = Some (ev, s') -> quiet a ->
  closed (ErrorChan (client s)) = false ->
  panicked s' = false /\ enqueued [ev] = [] /\
  closed (requestChan (client s')) = closed (requestChan (client s)).
Proof.
  intros Hs [-> | ->] Ho; step_cases Hs; cbn; repeat split; congruence.
Qed.

Lemma quiet_exec addr prefix acts : forall tr s tr' s',
  run M addr prefix tr s -> panicked s = false ->
  exec M s acts = Some (tr', s') -> Forall quiet acts ->
  panicked s' = false /\ enqueued tr' = [] /\
  closed (requestChan (client s')) = closed (requestChan (client s)).
Proof.
  induction acts as [ | a acts IH ]; cbn [exec]; intros tr s tr' s' Hr Hp He Hq.
  - inversion He; subst. auto.
  - destruct (step M s a) as [ [ev s1] | ] eqn:Hs; [ | discriminate ].
    destruct (exec M s1 acts) as [ [tr1 s2] | ] eqn:He1; [ | discriminate ].
    inversion He; subst. inversion Hq; subst.
    destruct (quiet_step _ _ _ _ Hs H1 (inv_err_open (run_invariant _ _ _ _ Hr)))
      as (Hp1 & Hn1 & Hc1).
    destruct (IH _ _ _ _ (run_step _ Hr Hs) Hp1 He1 H2)
      as (Hp2 & Hn2 & Hc2).
    split; [ assumption | ]. split; [ | congruence ].
    change (ev :: tr1) with ([ev] ++ tr1).
    unfold enqueued in *. now rewrite flat_map_app, Hn1, Hn2.
Qed.

Ltac quiet_list :=
  repeat (apply Forall_cons; [ first [ now left | now right ] | ]);
  apply Forall_nil.

(** A pending error gets posted: at once when ErrorChan has room, after
    the application has received one error when it is full. *)
Lemma post_schedule addr prefix tr s e :
  run M addr prefix tr s -> panicked s = false -> worker s = AtSend e ->
  exists acts tr' s',
    exec M s acts = Some (tr', s') /\ Forall quiet acts /\
    worker s' = AtRecv /\
    requestChan (client s') = requestChan (client s) /\
    posted tr' = [e].
Proof.
  intros Hr Hp Hw. pose proof (run_invariant _ _ _ _ Hr) as Hi.
  destruct (full (ErrorChan (client s))) eqn:Hf.
  - apply full_length in Hf. rewrite (inv_err_cap Hi) in Hf.
    destruct (buf (ErrorChan (client s))) as [ | e0 rest ] eqn:Hb;
      [ cbn in Hf; lia | ].
    assert (Hs1 : exists s1, step M s AConsume = Some (EvConsume e0, s1)).
    { unfold step, recv. rewrite Hp, Hb. eauto. }
    destruct Hs1 as (s1 & Hs1).
    pose proof (run_step _ Hr Hs1) as Hr1.
    pose proof (run_invariant _ _ _ _ Hr1) as Hi1.
    destruct (step_consume _ _ _ _ Hs1) as (_ & Hw1 & Hb1 & Hc1 & _ & Hq1).
    destruct (quiet_step _ _ _ _ Hs1 (or_intror eq_refl) (inv_err_open Hi))
      as (Hp1 & _).
    destruct (worker_posts s1 e) as (s2 & Hs2 & Hw2 & _);
      [ assumption | congruence | apply Hi1 | | ].
    { apply not_full_length. rewrite (inv_err_cap Hi1).
      pose proof (inv_err_len Hi) as Hl. rewrite Hb in Hl, Hb1. cbn in Hl.
      inversion Hb1 as [ Hrest ]. rewrite <- Hrest. lia. }
    exists [AConsume; AWorker]. do 2 eexists.
    split; [ cbn; rewrite Hs1, Hs2; reflexivity | ].
    split; [ quiet_list | ].
    split; [ assumption | ]. split; [ | reflexivity ].
    destruct (step_post _ _ _ _ Hs2) as (_ & _ & _ & _ & _ & Hq2). congruence.
  - destruct (worker_posts s e Hp Hw (inv_err_open Hi) Hf) as (s1 & Hs1 & Hw1 & _).
    exists [AWorker]. do 2 eexists.
    split; [ apply exec_one; eassumption | ].
    split; [ quiet_list | ].
    split; [ assumption | ]. split; [ | reflexivity ].
    now destruct (step_post _ _ _ _ Hs1) as (_ & _ & _ & _ & _ & Hq1).
Qed.

(** A closure in the worker's hand gets run and its error, if any,
    posted. *)
Lemma call_schedule addr prefix tr s req :
  run M addr prefix tr s -> panicked s = false -> worker s = AtCall req ->
  exists acts tr' s',
    exec M s acts = Some (tr', s') /\ Forall quiet acts /\
    worker s' = AtRecv /\
    requestChan (client s') = requestChan (client s).
Proof.
  intros Hr Hp Hw. pose proof (run_invariant _ _ _ _ Hr) as Hi.
  destruct (worker_calls _ _ Hp Hw) as (err & s1 & Hs1 & _ & Hw1).
  destruct (step_exec _ _ _ _ _ Hs1) as (_ & _ & _ & _ & Hq1 & _).
  destruct (quiet_step _ _ _ _ Hs1 (or_introl eq_refl) (inv_err_open Hi))
    as (Hp1 & _).
  destruct err as [ e | ].
  - destruct (post_schedule _ _ _ _ _ (run_step _ Hr Hs1) Hp1 Hw1)
      as (acts & tr' & s2 & He & Hqs & Hw2 & Hq2 & _).
    exists (AWorker :: acts). do 2 eexists.
    split; [ change (AWorker :: acts) with ([AWorker] ++ acts);
             eapply exec_app; [ apply exec_one | ]; eassumption | ].
    split; [ constructor; [ now left | assumption ] | ].
    split; [ assumption | congruence ].
  - exists [AWorker]. do 2 eexists.
    split; [ apply exec_one; eassumption | ].
    split; [ quiet_list | ].
    split; assumption.
Qed.

Lemma drain_from_recv addr prefix n : forall tr s,
  run M addr prefix tr s -> panicked s = false -> worker s = AtRecv ->
  List.length (buf (requestChan (client s))) = n ->
  exists acts tr' s',
    exec M s acts = Some (tr', s') /\ Forall quiet acts /\
    worker s' = AtRecv /\ buf (requestChan (client s')) = [].
Proof.
  induction n as [ | n IH ]; intros tr s Hr Hp Hw Hn.
  - exists []. do 2 eexists. split; [ reflexivity | ].
    split; [ constructor | ]. split; [ assumption | ].
    now apply length_zero_iff_nil.
  - pose proof (run_invariant _ _ _ _ Hr) as Hi.
    destruct (buf (requestChan (client s))) as [ | req rest ] eqn:Hb;
      [ discriminate | ].
    destruct (worker_receives _ _ _ Hp Hw Hb) as (s1 & Hs1 & Hw1 & Hb1).
    destruct (quiet_step _ _ _ _ Hs1 (or_introl eq_refl) (inv_err_open Hi))
      as (Hp1 & _).
    pose proof (run_step _ Hr Hs1) as Hr1.
    destruct (call_schedule _ _ _ _ _ Hr1 Hp1 Hw1)
      as (acts2 & tr2 & s2 & He2 & Hq2 & Hw2 & Hc2).
    pose proof (run_exec _ _ _ _ _ _ _ Hr1 He2) as Hr2.
    destruct (quiet_exec _ _ _ _ _ _ _ Hr1 Hp1 He2 Hq2) as (Hp2 & _).
    destruct (IH _ s2 Hr2 Hp2 Hw2) as (acts3 & tr3 & s3 & He3 & Hq3 & Hw3 & Hb3).
    { rewrite Hc2, Hb1. cbn in Hn. lia. }
    exists (AWorker :: acts2 ++ acts3). do 2 eexists.
    split.
    { change (AWorker :: acts2 ++ acts3) with ([AWorker] ++ acts2 ++ acts3).
      eapply exec_app; [ apply exec_one; eassumption | ].
      eapply exec_app; eassumption. }
    split; [ constructor; [ now left | now apply Forall_app ] | ].
    split; assumption.
Qed.

(** From every state of a run that has not panicked, the worker and the
    reader of ErrorChan alone can take the program to a state where
    every closure sent has been run, in the order of the sends. *)
Lemma drain addr prefix tr s :
  run M addr prefix tr s -> panicked s = false ->
  exists acts tr' s',
    exec M s acts = Some (tr', s') /\ Forall quiet acts /\
    panicked s' = false /\
    (worker s' = AtRecv \/ worker s' = Returned) /\
    buf (requestChan (client s')) = [] /\
    closed (requestChan (client s')) = closed (requestChan (client s)) /\
    map fst (executed (tr ++ tr')) = enqueued tr.
Proof.
  intros Hr Hp.
  assert (Hsched : exists acts tr' s',
             exec M s acts = Some (tr', s') /\ Forall quiet acts /\
             (worker s' = AtRecv \/ worker s' = Returned) /\
             buf (requestChan (client s')) = []).
  { destruct (worker s) as [ | req | e | ] eqn:Hw.
    - destruct (drain_from_recv _ _ _ _ _ Hr Hp Hw eq_refl)
        as (acts & tr' & s' & He & Hq & Hw' & Hb').
      exists acts, tr', s'. auto.
    - destruct (call_schedule _ _ _ _ _ Hr Hp Hw)
        as (acts1 & tr1 & s1 & He1 & Hq1 & Hw1 & _).
      destruct (quiet_exec _ _ _ _ _ _ _ Hr Hp He1 Hq1) as (Hp1 & _).
      destruct (drain_from_recv _ _ _ _ _ (run_exec _ _ _ _ _ _ _ Hr He1) Hp1 Hw1 eq_refl)
        as (acts & tr' & s' & He & Hq & Hw' & Hb').
      exists (acts1 ++ acts). do 2 eexists.
      split; [ eapply exec_app; eassumption | ].
      split; [ now apply Forall_app | auto ].
    - destruct (post_schedule _ _ _ _ _ Hr Hp Hw)
        as (acts1 & tr1 & s1 & He1 & Hq1 & Hw1 & _).
      destruct (quiet_exec _ _ _ _ _ _ _ Hr Hp He1 Hq1) as (Hp1 & _).
      destruct (drain_from_recv _ _ _ _ _ (run_exec _ _ _ _ _ _ _ Hr He1) Hp1 Hw1 eq_refl)
        as (acts & tr' & s' & He & Hq & Hw' & Hb').
      exists (acts1 ++ acts). do 2 eexists.
      split; [ eapply exec_app; eassumption | ].
      split; [ now apply Forall_app | auto ].
    - exists []. do 2 eexists. split; [ reflexivity | ].
      split; [ constructor | ]. split; [ auto | ].
      apply (inv_returned (run_invariant _ _ _ _ Hr) Hw). }
  destruct Hsched as (acts & tr' & s' & He & Hq & Hw' & Hb').
  destruct (quiet_exec _ _ _ _ _ _ _ Hr Hp He Hq) as (Hp' & Hn & Hc').
  exists acts, tr', s'. repeat (split; [ assumption | ]).
  pose proof (run_fifo _ _ _ _ (run_exec _ _ _ _ _ _ _ Hr He)) as Hfifo.
  rewrite Hb' in Hfifo. unfold enqueued in Hfifo, Hn |- *.
  rewrite flat_map_app, Hn, !app_nil_r in Hfifo.
  destruct Hw' as [ Hw' | Hw' ]; rewrite Hw' in Hfifo; cbn in Hfifo;
    rewrite app_nil_r in Hfifo; now symmetry.
Qed.

(** What a metric method that returns has done: sent the closure [req]. *)
Lemma sends_closure (req : request Event) (c c' : AsyncClient error Event St) :
  send_request req c = Returns c' ->
  buf (requestChan c') = buf (requestChan c) ++ [req].
Proof.
  intros H. apply send_request_Returns in H. destruct H as (_ & _ & ->).
  reflexivity.
Qed.

(** C1 (as amended): the calls of a single caller thread are run by the
    worker in the order of the calls, each as the operation of the
    synchronous client of the same name on the arguments of the call:
    in every run where only caller [t] calls metric methods, the calls
    of [t] that returned are, in order, the closures already run, then
    the one the worker holds, then the ones still buffered (none
    reordered, merged, repeated or lost); each of the twelve methods
    sends the closure of its own name with its own arguments; the
    worker receives the oldest buffered closure; running the closure of
    Incr, Decr, ... is statsd.Incr, statsd.Decr, ... on the string and
    the number of the call, and running the closure of SendEvent is
    statsd.SendEvent on the event value of the call, which reads the
    event as the events' memory has it when the closure runs, not as it
    was when the call was made; and unless the program has panicked the
    worker, with the application reading ErrorChan, can go on until all
    these calls have been run. *)
Theorem C1_single_caller_order addr prefix tr s t :
  run M addr prefix tr s ->
  (forall u req, In (EvEnqueue u req) tr -> u = t) ->
  calls_by t tr =
    map fst (executed tr) ++ inflight (worker s) ++ buf (requestChan (client s))
  /\ (forall c c' : AsyncClient error Event St,
        (forall stat count, Incr stat count c = Returns c' ->
           buf (requestChan c') = buf (requestChan c) ++ [ReqIncr stat count])
        /\ (forall stat count, Decr stat count c = Returns c' ->
           buf (requestChan c') = buf (requestChan c) ++ [ReqDecr stat count])
        /\ (forall stat delta, Timing stat delta c = Returns c' ->
           buf (requestChan c') = buf (requestChan c) ++ [ReqTiming stat delta])
        /\ (forall stat delta, PrecisionTiming stat delta c = Returns c' ->
           buf (requestChan c') =
           buf (requestChan c) ++ [ReqPrecisionTiming stat delta])
        /\ (forall stat value, Gauge stat value c = Returns c' ->
           buf (requestChan c') = buf (requestChan c) ++ [ReqGauge stat value])
        /\ (forall stat value, GaugeDelta stat value c = Returns c' ->
           buf (requestChan c') = buf (requestChan c) ++ [ReqGaugeDelta stat value])
        /\ (forall stat value, FGauge stat value c = Returns c' ->
           buf (requestChan c') = buf (requestChan c) ++ [ReqFGauge stat value])
        /\ (forall stat value, FGaugeDelta stat value c = Returns c' ->
           buf (requestChan c') = buf (requestChan c) ++ [ReqFGaugeDelta stat value])
        /\ (forall stat value, Absolute stat value c = Returns c' ->
           buf (requestChan c') = buf (requestChan c) ++ [ReqAbsolute stat value])
        /\ (forall stat value, FAbsolute stat value c = Returns c' ->
           buf (requestChan c') = buf (requestChan c) ++ [ReqFAbsolute stat value])
        /\ (forall stat value, Total stat value c = Returns c' ->
           buf (requestChan c') = buf (requestChan c) ++ [ReqTotal stat value])
        /\ (forall e, SendEvent e c = Returns c' ->
           buf (requestChan c') = buf (requestChan c) ++ [ReqSendEvent e]))
  /\ (forall a req s', step M s a = Some (EvDequeue req, s') ->
        exists rest, buf (requestChan (client s)) = req :: rest /\
                     worker s' = AtCall req)
  /\ (forall a req err s', step M s a = Some (EvExec req err, s') ->
        worker s = AtCall req /\
        match req with
        | ReqIncr stat count => statsd_Incr M stat count (statsd (client s))
        | ReqDecr stat count => statsd_Decr M stat count (statsd (client s))
        | ReqTiming stat delta => statsd_Timing M stat delta (statsd (client s))
        | ReqPrecisionTiming stat delta =>
            statsd_PrecisionTiming M stat delta (statsd (client s))
        | ReqGauge stat value => statsd_Gauge M stat value (statsd (client s))
        | ReqGaugeDelta stat value =>
            statsd_GaugeDelta M stat value (statsd (client s))
        | ReqFGauge stat value => statsd_FGauge M stat value (statsd (client s))
        | ReqFGaugeDelta stat value =>
            statsd_FGaugeDelta M stat value (statsd (client s))
        | ReqAbsolute stat value => statsd_Absolute M stat value (statsd (client s))
        | ReqFAbsolute stat value =>
            statsd_FAbsolute M stat value (statsd (client s))
        | ReqTotal stat value => statsd_Total M stat value (statsd (client s))
        | ReqSendEvent e => statsd_SendEvent M e (events s) (statsd (client s))
        end = (err, statsd (client s')))
  /\ (panicked s = false ->
      exists acts tr' s',
        exec M s acts = Some (tr', s') /\ Forall quiet acts /\
        map fst (executed (tr ++ tr')) = calls_by t tr).
Proof.
  intros Hr Hone. rewrite (calls_by_single _ _ Hone).
  split; [ now apply (run_fifo addr prefix) | ].
  split; [ | split; [ | split ] ].
  - intros c c'. repeat split; intros; now apply sends_closure.
  - intros a req s' Hs. apply step_dequeue in Hs.
    destruct Hs as (_ & _ & Hw & Hb & _). eauto.
  - intros a req err s' Hs. apply step_exec in Hs.
    destruct Hs as (_ & Hw & Hc & _). split; [ assumption | ].
    rewrite <- Hc. now destruct req.
  - intros Hp.
    destruct (drain _ _ _ _ Hr Hp) as (acts & tr' & s' & He & Hq & _ & _ & _ & _ & Hx).
    exists acts, tr', s'. auto.
Qed.


(** C3: a successful Close loses no call: in every run in which a Close
    returned nil, no call was accepted after that return, every call
    sent before it has been run, is in the worker's hand or is still
    buffered, in the order of the sends; once the worker has returned,
    the calls it ran are exactly the calls sent before the close, in
    order; unless the program has panicked the worker, with the
    application reading ErrorChan, can go on until it returns, having
    run them all; and the step that closes the queue leaves its buffer
    and the worker as they are. *)
Theorem C3_close_drains addr prefix tr1 t tr2 s :
  run M addr prefix (tr1 ++ EvCloseReturn t None :: tr2) s ->
  enqueued tr2 = []
  /\ enqueued tr1 =
       map fst (executed (tr1 ++ EvCloseReturn t None :: tr2)) ++
       inflight (worker s) ++ buf (requestChan (client s))
  /\ (worker s = Returned ->
        map fst (executed (tr1 ++ EvCloseReturn t None :: tr2)) = enqueued tr1)
  /\ (panicked s = false ->
      exists acts tr' s',
        exec M s acts = Some (tr', s') /\ Forall quiet acts /\
        worker s' = Returned /\
        map fst (executed ((tr1 ++ EvCloseReturn t None :: tr2) ++ tr'))
          = enqueued tr1)
  /\ (forall s0 a u s0',
        step M s0 a = Some (EvCloseReturn u None, s0') ->
        buf (requestChan (client s0')) = buf (requestChan (client s0)) /\
        worker s0' = worker s0).
Proof.
  intros Hr.
  pose proof (no_enqueue_after_close _ _ _ _ _ _ Hr) as Hno.
  pose proof (run_fifo _ _ _ _ Hr) as Hfifo.
  pose proof (run_invariant _ _ _ _ Hr) as Hi.
  assert (Henq : enqueued (tr1 ++ EvCloseReturn t None :: tr2) = enqueued tr1).
  { unfold enqueued in *. rewrite flat_map_app. cbn [flat_map app].
    rewrite Hno. now rewrite app_nil_r. }
  rewrite Henq in Hfifo.
  assert (Hc : closed (requestChan (client s)) = true).
  { apply (inv_closed Hi). exists t. apply in_or_app. right. now left. }
  split; [ assumption | ]. split; [ assumption | ]. split; [ | split ].
  - intros Hw. destruct (inv_returned Hi Hw) as (_ & Hb).
    rewrite Hfifo, Hw, Hb. cbn. now rewrite app_nil_r.
  - intros Hp.
    destruct (drain _ _ _ _ Hr Hp)
      as (acts & tr' & s' & He & Hq & Hp' & Hw' & Hb' & Hc' & Hx).
    rewrite Henq in Hx. rewrite Hc in Hc'.
    destruct Hw' as [ Hw' | Hw' ]; [ | exists acts, tr', s'; auto ].
    destruct (worker_returns _ Hp' Hw' Hb' Hc') as (s'' & Hs'' & Hw'').
    exists (acts ++ [AWorker]), (tr' ++ [EvReturn]), s''.
    split; [ eapply exec_app; [ | apply exec_one ]; eassumption | ].
    split; [ apply Forall_app; split; [ assumption | quiet_list ] | ].
    split; [ assumption | ].
    rewrite app_assoc, executed_snoc, app_nil_r. exact Hx.
  - intros s0 a u s0' Hs. apply step_close_return_nil in Hs. tauto.
Qed.

(** What a step does to [requestChan]: nothing, one send, the worker's
    receive of the oldest closure, or the close. *)
Lemma step_requestChan s a ev s' :
  step M s a = Some (ev, s') ->
  requestChan (client s') = requestChan (client s)
  \/ (exists t req, ev = EvEnqueue t req)
  \/ (a = AWorker /\ exists req,
        ev = EvDequeue req /\
        buf (requestChan (client s)) = req :: buf (requestChan (client s')) /\
        cap (requestChan (client s')) = cap (requestChan (client s)) /\
        closed (requestChan (client s')) = closed (requestChan (client s)))
  \/ (exists t, ev = EvCloseReturn t None /\
                closed (requestChan (client s')) = true).
Proof.
  intros Hs. step_cases Hs; cbn; auto.
  - right. left. eauto.
  - right. right. right. eauto.
  - right. right. left. split; [ reflexivity | ].
    eexists. repeat split; congruence.
Qed.

Lemma method_Blocks (req : request Event) (c : AsyncClient error Event St) :
  method req c = Blocks <->
  closed (requestChan c) = false /\ cap (requestChan c) <= List.length (buf (requestChan c)).
Proof. rewrite method_send_request, send_request_Blocks, full_length. tauto. Qed.

Lemma method_Panics (req : request Event) (c : AsyncClient error Event St) :
  method req c = Panics <-> closed (requestChan c) = true.
Proof. rewrite method_send_request. apply send_request_Panics. Qed.

Lemma method_Returns (req : request Event) (c : AsyncClient error Event St) :
  closed (requestChan c) = false ->
  List.length (buf (requestChan c)) < cap (requestChan c) ->
  method req c =
  Returns (set_requestChan c {| buf := buf (requestChan c) ++ [req];
                                cap := cap (requestChan c);
                                closed := false |}).
Proof.
  intros Hc Hl. rewrite method_send_request. apply send_request_Returns.
  rewrite not_full_length. auto.
Qed.

Lemma exec_queue_length addr prefix tr s acts tr' s' :
  run M addr prefix tr s -> exec M s acts = Some (tr', s') ->
  List.length (buf (requestChan (client s'))) + List.length (dequeued tr') =
  List.length (buf (requestChan (client s))) + List.length (enqueued tr').
Proof.
  intros Hr He.
  pose proof (inv_fifo (run_invariant _ _ _ _ Hr)) as H1.
  pose proof (inv_fifo (run_invariant _ _ _ _ (run_exec _ _ _ _ _ _ _ Hr He))) as H2.
  apply (f_equal (@List.length _)) in H1, H2.
  unfold enqueued, dequeued in *.
  rewrite ?flat_map_app, ?length_app in *. lia.
Qed.

(** C4 (as amended): a metric method blocks its caller exactly when the
    Work Queue is open and holds 1000 closures (on a closed queue the
    call panics, full or not); while fewer than 1000 calls have been
    accepted since the client was made no call blocks, and from any
    state no call blocks while fewer calls have been accepted than
    places were free; when as many calls have been accepted as places
    were free and the worker has received nothing, the next call on the
    open queue blocks; a blocked call stays blocked until the worker
    receives a closure, which lets it return, or until the queue is
    closed, which makes it panic; and a call that returns has only
    appended its closure to the queue. *)
Theorem C4_blocks_iff_open_and_full addr prefix tr s req :
  run M addr prefix tr s ->
  (method req (client s) = Blocks <->
     closed (requestChan (client s)) = false /\
     List.length (buf (requestChan (client s))) = 1000)
  /\ (List.length (enqueued tr) < 1000 -> method req (client s) <> Blocks)
  /\ (forall acts tr' s',
        exec M s acts = Some (tr', s') ->
        List.length (buf (requestChan (client s))) + List.length (enqueued tr') < 1000 ->
        method req (client s') <> Blocks)
  /\ (forall acts tr' s',
        exec M s acts = Some (tr', s') ->
        dequeued tr' = [] ->
        closed (requestChan (client s')) = false ->
        List.length (buf (requestChan (client s))) + List.length (enqueued tr') = 1000 ->
        method req (client s') = Blocks)
  /\ (method req (client s) = Blocks ->
      forall a ev s', step M s a = Some (ev, s') ->
        method req (client s') = Blocks
        \/ (a = AWorker /\ (exists r, ev = EvDequeue r) /\
            exists c', method req (client s') = Returns c')
        \/ ((exists t, ev = EvCloseReturn t None) /\
            method req (client s') = Panics))
  /\ (forall c', method req (client s) = Returns c' ->
        c' = {| statsd := statsd (client s);
                ErrorChan := ErrorChan (client s);
                requestChan := {| buf := buf (requestChan (client s)) ++ [req];
                                  cap := 1000;
                                  closed := false |} |}).
Proof.
  intros Hr. pose proof (run_invariant _ _ _ _ Hr) as Hi.
  pose proof (inv_req_cap Hi) as Hcap. pose proof (inv_req_len Hi) as Hlen.
  assert (Hiff : forall tr0 s0, run M addr prefix tr0 s0 ->
                 (method req (client s0) = Blocks <->
                  closed (requestChan (client s0)) = false /\
                  List.length (buf (requestChan (client s0))) = 1000)).
  { intros tr0 s0 Hr0. pose proof (run_invariant _ _ _ _ Hr0) as Hi0.
    pose proof (inv_req_len Hi0). rewrite method_Blocks, (inv_req_cap Hi0).
    intuition lia. }
  split; [ now apply (Hiff tr) | ].
  split; [ | split; [ | split; [ | split ] ] ].
  - intros Hn Hb. apply (Hiff tr) in Hb; [ | assumption ]. destruct Hb as (_ & Hb).
    rewrite (inv_fifo Hi), length_app in Hn. lia.
  - intros acts tr' s' He Hn Hb.
    pose proof (run_exec _ _ _ _ _ _ _ Hr He) as Hr'.
    apply (Hiff _ _ Hr') in Hb. destruct Hb as (_ & Hb).
    pose proof (exec_queue_length _ _ _ _ _ _ _ Hr He). lia.
  - intros acts tr' s' He Hd Ho Hn.
    pose proof (run_exec _ _ _ _ _ _ _ Hr He) as Hr'.
    apply (Hiff _ _ Hr'). split; [ assumption | ].
    pose proof (exec_queue_length _ _ _ _ _ _ _ Hr He) as Hq.
    rewrite Hd in Hq. cbn in Hq. lia.
  - intros Hb a ev s' Hs. apply (Hiff tr) in Hb; [ | assumption ].
    destruct Hb as (Ho & Hfull).
    pose proof (step_invariant _ _ _ _ _ Hi Hs) as Hi'.
    destruct (step_requestChan _ _ _ _ Hs)
      as [ Heq | [ (t & r & ->) | [ (-> & r & -> & Hb & Hc & Hcl) | (t & -> & Hcl) ] ] ].
    + left. apply method_Blocks. rewrite Heq, Hcap. split; [ assumption | lia ].
    + apply step_enqueue in Hs. destruct Hs as (_ & _ & Hf & _).
      apply not_full_length in Hf. lia.
    + right. left. split; [ reflexivity | ]. split; [ eauto | ].
      eexists. apply method_Returns; [ congruence | ].
      rewrite Hb in Hfull. cbn in Hfull. rewrite Hc, Hcap. lia.
    + right. right. split; [ eauto | ]. now apply method_Panics.
  - intros c' Hret. rewrite method_send_request in Hret.
    apply send_request_Returns in Hret. destruct Hret as (_ & _ & ->).
    unfold set_requestChan. now rewrite Hcap.
Qed.

(** C5: when the synchronous client's close fails, Close returns that
    error at once, from its first statement, and changes nothing of the
    pipeline: the Work Queue (still open if it was), ErrorChan, the
    worker, the callers inside Close and the panic flag are as before;
    only the state of the synchronous client is what its close left. *)
Theorem C5_close_error_leaves_pipeline s t e st' :
  panicked s = false -> is_closing t s = false ->
  statsd_Close M (statsd (client s)) = (Some e, st') ->
  Close M (client s) = CloseReturns (Some e) (set_statsd (client s) st')
  /\ exists s',
      step M s (AClose t) = Some (EvCloseReturn t (Some e), s') /\
      requestChan (client s') = requestChan (client s) /\
      (closed (requestChan (client s)) = false ->
       closed (requestChan (client s')) = false) /\
      ErrorChan (client s') = ErrorChan (client s) /\
      statsd (client s') = st' /\
      worker s' = worker s /\
      closing s' = closing s /\
      panicked s' = false /\
      (forall c1 pc1, process_step M (client s) (events s) (worker s) = WStep c1 pc1 ->
         exists c2 pc2, process_step M (client s') (events s') (worker s') = WStep c2 pc2).
Proof.
  intros Hp Ht Hc. split.
  - unfold Close, Close_step. now rewrite Hc.
  - unfold step, Close_step. rewrite Hp, Ht, Hc.
    eexists. split; [ reflexivity | ]. cbn.
    repeat split; auto.
    intros c1 pc1. unfold process_step, recv, send. cbn.
    destruct (worker s) as [ | r | e0 | ].
    + destruct (buf (requestChan (client s))); [ destruct (closed _) | ]; eauto; discriminate.
    + intros _. destruct (call M r (events s) st') as [ [ e1 | ] st1 ]; eauto.
    + destruct (closed (ErrorChan (client s))); [ discriminate | ].
      destruct (full (ErrorChan (client s))); [ discriminate | eauto ].
    + discriminate.
Qed.


(** A worker that stands at the send of [e] with ErrorChan full. *)
Lemma stalled_step s e a ev s' :
  worker s = AtSend e -> full (ErrorChan (client s)) = true ->
  closed (ErrorChan (client s)) = false ->
  step M s a = Some (ev, s') -> a <> AConsume ->
  worker s' = AtSend e /\ ErrorChan (client s') = ErrorChan (client s) /\
  dequeued [ev] = [] /\ executed [ev] = [] /\ posted [ev] = [] /\
  buf (requestChan (client s')) = buf (requestChan (client s)) ++ enqueued [ev].
Proof.
  intros Hw Hf Hc Hs Ha.
  step_cases Hs; cbn; rewrite ?app_nil_r; try congruence; repeat split; congruence.
Qed.

Lemma stalled_exec e acts : forall s tr' s',
  worker s = AtSend e -> full (ErrorChan (client s)) = true ->
  closed (ErrorChan (client s)) = false ->
  exec M s acts = Some (tr', s') -> ~ In AConsume acts ->
  worker s' = AtSend e /\ ErrorChan (client s') = ErrorChan (client s) /\
  dequeued tr' = [] /\ executed tr' = [] /\ posted tr' = [] /\
  buf (requestChan (client s')) = buf (requestChan (client s)) ++ enqueued tr'.
Proof.
  induction acts as [ | a acts IH ]; cbn [exec]; intros s tr' s' Hw Hf Hc He Hn.
  - inversion He; subst. cbn. rewrite app_nil_r. auto 10.
  - destruct (step M s a) as [ [ev s1] | ] eqn:Hs; [ | discriminate ].
    destruct (exec M s1 acts) as [ [tr1 s2] | ] eqn:He1; [ | discriminate ].
    inversion He; subst.
    assert (Ha : a <> AConsume) by (intros ->; apply Hn; now left).
    destruct (stalled_step _ _ _ _ _ Hw Hf Hc Hs Ha)
      as (Hw1 & He1' & Hd & Hx & Hp & Hb).
    rewrite <- He1' in Hf, Hc.
    destruct (IH _ _ _ Hw1 Hf Hc He1) as (Hw2 & He2 & Hd2 & Hx2 & Hp2 & Hb2).
    { intros Hin. apply Hn. now right. }
    change (ev :: tr1) with ([ev] ++ tr1).
    unfold dequeued, executed, posted, enqueued in *.
    rewrite !flat_map_app, Hd, Hx, Hp, Hd2, Hx2, Hp2, Hb2, Hb.
    rewrite <- app_assoc. repeat split; congruence.
Qed.

(** C7: a worker that is to send an error on a full ErrorChan (100
    errors) is blocked; whatever the callers do meanwhile, as long as
    the application receives no error the worker stays at that send,
    ErrorChan stays as it is and nothing is received from the Work
    Queue, run or posted, the Work Queue only grows, up to its 1000
    places; and as soon as the application has received one error the
    send goes through and the worker is back at its receive. *)
Theorem C7_full_ErrorChan_stalls addr prefix tr s e :
  run M addr prefix tr s ->
  worker s = AtSend e ->
  List.length (buf (ErrorChan (client s))) = 100 ->
  step M s AWorker = None
  /\ (forall acts tr' s',
        exec M s acts = Some (tr', s') -> ~ In AConsume acts ->
        worker s' = AtSend e /\ step M s' AWorker = None /\
        ErrorChan (client s') = ErrorChan (client s) /\
        dequeued tr' = [] /\ executed tr' = [] /\ posted tr' = [] /\
        buf (requestChan (client s')) =
          buf (requestChan (client s)) ++ enqueued tr' /\
        List.length (buf (requestChan (client s))) + List.length (enqueued tr') <= 1000)
  /\ (panicked s = false ->
      exists e0 s1 s2,
        step M s AConsume = Some (EvConsume e0, s1) /\
        step M s1 AWorker = Some (EvPost e, s2) /\
        worker s2 = AtRecv).
Proof.
  intros Hr Hw Hlen. pose proof (run_invariant _ _ _ _ Hr) as Hi.
  pose proof (inv_err_open Hi) as Hopen. pose proof (inv_err_cap Hi) as Hcap.
  assert (Hfull : full (ErrorChan (client s)) = true)
    by (apply full_length; lia).
  assert (Hblocked : forall s0, worker s0 = AtSend e ->
            ErrorChan (client s0) = ErrorChan (client s) ->
            step M s0 AWorker = None).
  { intros s0 Hw0 He0. unfold step, process_step, send.
    rewrite Hw0, He0, Hopen, Hfull. now destruct (panicked s0). }
  split; [ now apply Hblocked | ]. split.
  - intros acts tr' s' He Hn.
    destruct (stalled_exec _ _ _ _ _ Hw Hfull Hopen He Hn)
      as (Hw' & He' & Hd & Hx & Hp & Hb).
    pose proof (run_invariant _ _ _ _ (run_exec _ _ _ _ _ _ _ Hr He)) as Hi'.
    pose proof (inv_req_len Hi') as Hl. rewrite Hb, length_app in Hl.
    repeat split; auto.
  - intros Hp.
    destruct (buf (ErrorChan (client s))) as [ | e0 rest ] eqn:Hb;
      [ discriminate | ].
    cbn in Hlen.
    exists e0. unfold step at 1. unfold recv. rewrite Hp, Hb.
    eexists. 
    destruct (worker_posts (with_client s
                (set_ErrorChan (client s)
                   {| buf := rest; cap := cap (ErrorChan (client s));
                      closed := closed (ErrorChan (client s)) |})) e)
      as (s2 & Hs2 & Hw2 & _); cbn; auto.
    { apply not_full_length. cbn. lia. }
    eauto.
Qed.

(** C8: once a Close has returned nil the Work Queue is closed for
    good, and every metric method called from then on panics: the call
    is not accepted (nothing is sent on the queue by any step), it does
    not return and it does not block; the panic ends the program, which
    runs no statement after it. *)
Theorem C8_call_after_close_panics addr prefix tr s t :
  run M addr prefix tr s ->
  In (EvCloseReturn t None) tr ->
  closed (requestChan (client s)) = true
  /\ (forall req, method req (client s) = Panics)
  /\ (forall u req, panicked s = false -> is_closing u s = false ->
        step M s (ACall u req) = Some (EvSendPanic u req, panic s))
  /\ (forall a ev s', step M s a = Some (ev, s') ->
        enqueued [ev] = [] /\ closed (requestChan (client s')) = true)
  /\ (forall a, step M (panic s) a = None).
Proof.
  intros Hr Hin. pose proof (run_invariant _ _ _ _ Hr) as Hi.
  assert (Hc : closed (requestChan (client s)) = true)
    by (apply (inv_closed Hi); eauto).
  assert (Hm : forall req, method req (client s) = Panics)
    by (intros req; now apply method_Panics).
  split; [ assumption | ]. split; [ assumption | ]. split; [ | split ].
  - intros u req Hp Hu. unfold step. now rewrite Hp, Hu, Hm.
  - intros a ev s' Hs. split.
    + eapply closed_no_enqueue; eassumption.
    + eapply step_closed_stable; eassumption.
  - intros a. reflexivity.
Qed.

Lemma always_succeeds_no_failure addr prefix tr s :
  (forall req m st, fst (call M req m st) = None) ->
  run M addr prefix tr s -> failures (executed tr) = [].
Proof.
  intros Hok. induction 1 as [ | tr s a ev s' _ IH Hs ]; [ reflexivity | ].
  rewrite executed_snoc, failures_app, IH. cbn [app].
  destruct ev; try reflexivity.
  apply step_exec in Hs. destruct Hs as (_ & _ & Hc & _).
  specialize (Hok req (events s) (statsd (client s))). rewrite Hc in Hok. cbn in Hok.
  now subst.
Qed.

(** C9: a call that succeeds leaves ErrorChan as it is: the worker goes
    from the call straight back to its receive and only the state of
    the synchronous client changes; and with a synchronous client whose
    operations always succeed, in every run no call has failed, nothing
    was sent on ErrorChan and ErrorChan is empty. *)
Theorem C9_success_leaves_ErrorChan :
  (forall c m req st',
     call M req m (statsd c) = (None, st') ->
     process_step M c m (AtCall req) =
     WStep {| statsd := st'; ErrorChan := ErrorChan c; requestChan := requestChan c |}
           AtRecv)
  /\ (forall s a req s',
        step M s a = Some (EvExec req None, s') ->
        ErrorChan (client s') = ErrorChan (client s) /\ worker s' = AtRecv)
  /\ ((forall req m st, fst (call M req m st) = None) ->
      forall addr prefix tr s,
        run M addr prefix tr s ->
        failures (executed tr) = [] /\ posted tr = [] /\
        buf (ErrorChan (client s)) = []).
Proof.
  split; [ | split ].
  - intros c m req st' Hc. unfold process_step. now rewrite Hc.
  - intros s a req s' Hs. apply step_exec in Hs.
    destruct Hs as (_ & _ & _ & Hw & _ & He). auto.
  - intros Hok addr prefix tr s Hr.
    pose proof (always_succeeds_no_failure _ _ _ _ Hok Hr) as Hf.
    pose proof (run_invariant _ _ _ _ Hr) as Hi.
    pose proof (inv_post Hi) as Hp. rewrite Hf in Hp.
    symmetry in Hp. apply app_eq_nil in Hp. destruct Hp as (Hp & _).
    pose proof (inv_errs Hi) as He. rewrite Hp in He.
    symmetry in He. apply app_eq_nil in He. destruct He as (_ & He).
    auto.
Qed.

Lemma not_closing_after_return t (l : list tid) :
  existsb (Nat.eqb t) (filter (fun u => negb (Nat.eqb t u)) l) = false.
Proof.
  induction l as [ | u l IH ]; [ reflexivity | ].
  cbn. destruct (Nat.eqb t u) eqn:Htu; cbn; [ assumption | ].
  now rewrite Htu.
Qed.

(** The two statements of a Close that succeeds. *)

Lemma close_statsd_step s t st' :
  panicked s = false -> is_closing t s = false ->
  statsd_Close M (statsd (client s)) = (None, st') ->
  step M s (AClose t) =
  Some (EvStatsdClosed t,
        {| client := set_statsd (client s) st'; events := events s;
           worker := worker s;
           closing := t :: closing s; panicked := false |}).
Proof.
  intros Hp Ht Hc. unfold step, Close_step. now rewrite Hp, Ht, Hc.
Qed.

Lemma close_chan_step s t :
  panicked s = false -> is_closing t s = true ->
  closed (requestChan (client s)) = false ->
  step M s (AClose t) =
  Some (EvCloseReturn t None,
        {| client := set_requestChan (client s)
                       {| buf := buf (requestChan (client s));
                          cap := cap (requestChan (client s));
                          closed := true |};
           events := events s;
           worker := worker s;
           closing := filter (fun u => negb (Nat.eqb t u)) (closing s);
           panicked := false |}).
Proof.
  intros Hp Ht Hc. unfold step, Close_step, close. now rewrite Hp, Ht, Hc.
Qed.

Lemma closing_after_other_return t u (l : list tid) :
  u <> t ->
  existsb (Nat.eqb t) (filter (fun v => negb (Nat.eqb u v)) l) =
  existsb (Nat.eqb t) l.
Proof.
  intros Hut. induction l as [ | v l IH ]; [ reflexivity | ].
  cbn. destruct (Nat.eqb u v) eqn:Huv; cbn; rewrite IH; [ | reflexivity ].
  apply Nat.eqb_eq in Huv. subst v.
  assert (Htu : Nat.eqb t u = false) by (apply Nat.eqb_neq; congruence).
  now rewrite Htu.
Qed.

(** Whether a caller stands at line 148 changes only by its own Close. *)
Lemma step_keeps_closing t s a ev s' :
  step M s a = Some (ev, s') -> a <> AClose t ->
  is_closing t s' = is_closing t s.
Proof.
  intros Hs Ha. unfold is_closing.
  step_cases Hs; cbn [closing with_client panic]; try reflexivity.
  - apply closing_after_other_return. congruence.
  - cbn. assert (Htu : Nat.eqb t t0 = false)
      by (apply Nat.eqb_neq; congruence).
    now rewrite Htu.
Qed.

(** C10 (as amended): when the synchronous client's close has succeeded
    for a caller and the Work Queue is still open when that caller
    reaches [close(c.requestChan)], Close only sets the closed flag of
    the Work Queue and returns nil: the buffered closures, ErrorChan,
    the synchronous client and the events are as before, the worker
    stands where it stood (Close is never blocked by it and runs none
    of its statements), and a closure still buffered is received and
    run by the worker after Close has returned.  The caller is at that
    statement exactly from its successful [c.statsd.Close()], which
    changes the synchronous client only, until its own next statement,
    whatever the other goroutines do meanwhile; and every return of
    Close with nil is such a step. *)
Theorem C10_close_success_only_closes_queue s t :
  panicked s = false -> is_closing t s = true ->
  closed (requestChan (client s)) = false ->
  (exists s2,
     step M s (AClose t) = Some (EvCloseReturn t None, s2) /\
     client s2 =
       {| statsd := statsd (client s);
          ErrorChan := ErrorChan (client s);
          requestChan := {| buf := buf (requestChan (client s));
                            cap := cap (requestChan (client s));
                            closed := true |} |} /\
     events s2 = events s /\
     worker s2 = worker s /\
     is_closing t s2 = false /\
     panicked s2 = false /\
     (forall req rest,
        worker s = AtRecv -> buf (requestChan (client s)) = req :: rest ->
        exists s3 err s4,
          step M s2 AWorker = Some (EvDequeue req, s3) /\
          step M s3 AWorker = Some (EvExec req err, s4)))
  /\ (forall s0 st',
        panicked s0 = false -> is_closing t s0 = false ->
        statsd_Close M (statsd (client s0)) = (None, st') ->
        exists s1,
          step M s0 (AClose t) = Some (EvStatsdClosed t, s1) /\
          client s1 =
            {| statsd := st';
               ErrorChan := ErrorChan (client s0);
               requestChan := requestChan (client s0) |} /\
          events s1 = events s0 /\
          worker s1 = worker s0 /\
          is_closing t s1 = true /\
          panicked s1 = false)
  /\ (forall s0 a ev s1,
        step M s0 a = Some (ev, s1) -> a <> AClose t ->
        is_closing t s1 = is_closing t s0)
  /\ (forall s0 a s1,
        step M s0 a = Some (EvCloseReturn t None, s1) ->
        a = AClose t /\ is_closing t s0 = true /\
        closed (requestChan (client s0)) = false /\
        closed (requestChan (client s1)) = true /\
        buf (requestChan (client s1)) = buf (requestChan (client s0)) /\
        ErrorChan (client s1) = ErrorChan (client s0) /\
        statsd (client s1) = statsd (client s0) /\
        worker s1 = worker s0)
  /\ (forall (c : AsyncClient error Event St) st',
        statsd_Close M (statsd c) = (None, st') ->
        closed (requestChan c) = false ->
        Close M c =
          CloseReturns None
            {| statsd := st';
               ErrorChan := ErrorChan c;
               requestChan := {| buf := buf (requestChan c);
                                 cap := cap (requestChan c);
                                 closed := true |} |}).
Proof.
  intros Hp Ht Ho.
  split; [ | split; [ | split; [ | split ] ] ].
  - pose proof (close_chan_step s t Hp Ht Ho) as H2.
    match type of H2 with _ = Some (_, ?s2) => exists s2 end.
    split; [ exact H2 | ].
    split; [ reflexivity | ]. split; [ reflexivity | ]. split; [ reflexivity | ].
    split; [ apply not_closing_after_return | ].
    split; [ reflexivity | ].
    intros req rest Hw Hb.
    match type of H2 with _ = Some (_, ?s2) =>
      destruct (worker_receives s2 req rest eq_refl Hw Hb) as (s3 & Hs3 & Hw3 & _);
      assert (Hp3 : panicked s3 = false)
    end.
    { unfold step in Hs3. cbn in Hs3. rewrite Hw in Hs3. cbn in Hs3.
      rewrite Hb in Hs3. inversion Hs3. reflexivity. }
    destruct (worker_calls _ _ Hp3 Hw3) as (err & s4 & Hs4 & _).
    eauto.
  - intros s0 st' Hp0 Ht0 Hc0.
    pose proof (close_statsd_step _ _ _ Hp0 Ht0 Hc0) as H1.
    match type of H1 with _ = Some (_, ?s1) => exists s1 end.
    split; [ exact H1 | ].
    split; [ reflexivity | ]. split; [ reflexivity | ]. split; [ reflexivity | ].
    split; [ | reflexivity ].
    unfold is_closing. cbn. now rewrite Nat.eqb_refl.
  - intros s0 a ev s1 Hs Ha. eapply step_keeps_closing; eassumption.
  - intros s0 a s1 Hs. now apply step_close_return_nil.
  - intros c st' Hc Hoc. unfold Close, Close_step, close.
    rewrite Hc. cbn. now rewrite Hoc.
Qed.

(** ** Beyond one caller: callers, the synchronous client, panics *)

Lemma sent_cons (ev : event error Event) tr :
  sent (ev :: tr) =
  match ev with EvEnqueue t req => [(t, req)] | _ => [] end ++ sent tr.
Proof. reflexivity. Qed.

Lemma enqueued_cons (ev : event error Event) tr :
  enqueued (ev :: tr) =
  match ev with EvEnqueue _ req => [req] | _ => [] end ++ enqueued tr.
Proof. reflexivity. Qed.

Lemma calls_by_cons t (ev : event error Event) tr :
  calls_by t (ev :: tr) =
  match ev with
  | EvEnqueue u req => if Nat.eqb u t then [req] else []
  | _ => []
  end ++ calls_by t tr.
Proof. reflexivity. Qed.

Lemma sent_enqueued (tr : list (event error Event)) :
  map snd (sent tr) = enqueued tr.
Proof.
  induction tr as [ | ev tr IH ]; [ reflexivity | ].
  rewrite sent_cons, enqueued_cons, map_app, IH.
  now destruct ev.
Qed.

Lemma sent_calls_by t (tr : list (event error Event)) :
  of_caller t (sent tr) = calls_by t tr.
Proof.
  induction tr as [ | ev tr IH ]; [ reflexivity | ].
  rewrite sent_cons, calls_by_cons, <- IH.
  unfold of_caller. rewrite filter_app, map_app.
  destruct ev; try reflexivity.
  cbn. now destruct (Nat.eqb t0 t).
Qed.

(** X1: with any number of callers, the closures the worker has run are
    the first sends, in the order of the sends, and the other sends are
    the closure in the worker's hand followed by the buffered ones; so
    for every caller the calls that returned are, in the order of that
    caller's calls, those already run followed by those still to run. *)
Theorem X1_per_caller_order addr prefix tr s :
  run M addr prefix tr s ->
  map snd (firstn (List.length (executed tr)) (sent tr)) = map fst (executed tr)
  /\ map snd (skipn (List.length (executed tr)) (sent tr)) =
       inflight (worker s) ++ buf (requestChan (client s))
  /\ forall t, calls_by t tr = ran_by t tr ++ pending_by t tr.
Proof.
  intros Hr. pose proof (run_fifo _ _ _ _ Hr) as Hfifo.
  rewrite <- sent_enqueued in Hfifo.
  assert (Hn : List.length (executed tr) = List.length (map fst (executed tr)))
    by now rewrite length_map.
  split; [ | split ].
  - rewrite <- firstn_map, Hfifo, Hn, firstn_app, firstn_all, Nat.sub_diag.
    cbn. now rewrite app_nil_r.
  - rewrite <- skipn_map, Hfifo, Hn, skipn_app, skipn_all, Nat.sub_diag.
    reflexivity.
  - intros t. unfold ran_by, pending_by, of_caller.
    rewrite <- map_app, <- filter_app, firstn_skipn.
    symmetry. apply sent_calls_by.
Qed.

Lemma direct_all_app reqs1 : forall reqs2 (m : Mem) (st : St),
  direct_all M (reqs1 ++ reqs2) m st =
  (fst (direct_all M reqs1 m st)
     ++ fst (direct_all M reqs2 m (snd (direct_all M reqs1 m st))),
   snd (direct_all M reqs2 m (snd (direct_all M reqs1 m st)))).
Proof.
  induction reqs1 as [ | req reqs1 IH ]; intros reqs2 m st; cbn [direct_all app].
  - cbn [fst snd app]. now destruct (direct_all M reqs2 m st).
  - destruct (direct M req m st) as [err st1]. rewrite IH.
    destruct (direct_all M reqs1 m st1) as [errs st2]. reflexivity.
Qed.

(** While the callers only call metric methods and change no event,
    the synchronous client is where the direct calls of the closures
    run so far, one after the other, take a new client. *)
Lemma run_direct addr prefix tr s :
  run M addr prefix tr s ->
  (forall ev, In ev tr -> is_lifecycle ev = false /\ is_mutate ev = false) ->
  direct_all M (map fst (executed tr)) (events s) (NewStatsdClient M addr prefix) =
  (map snd (executed tr), statsd (client s)).
Proof.
  induction 1 as [ | tr s a ev s' _ IH Hs ]; intros Hall; [ reflexivity | ].
  assert (IH' := IH (fun ev0 Hin => Hall ev0 (in_or_app _ _ _ (or_introl Hin)))).
  assert (Hev : is_lifecycle ev = false /\ is_mutate ev = false)
    by (apply Hall, in_or_app; right; now left).
  destruct Hev as (Hl & Hm). clear IH Hall.
  rewrite executed_snoc, !map_app, direct_all_app.
  step_cases Hs; try discriminate Hl; try discriminate Hm;
    cbn [events client with_client panic set_requestChan set_statsd set_ErrorChan
         statsd map fst snd] in *;
    rewrite IH'; cbn [fst snd direct_all]; rewrite ?app_nil_r; try reflexivity.
  all: match goal with
       | H : call M ?r ?m ?st = _ |- _ =>
           replace (direct M r m st) with (call M r m st)
             by (destruct r; reflexivity);
           rewrite H; reflexivity
       end.
Qed.

(** X3: the asynchronous client does what the synchronous one would
    have done: in a run where the callers only called metric methods
    and changed no event, when the worker is back at its receive with
    the queue empty, the state of the synchronous client is that of a
    new client after the direct calls of its methods of the same names
    on the same arguments, one after the other in the order of the
    sends, and the errors posted or about to be read are exactly the
    errors those calls returned, in order. *)
Theorem X3_drained_is_synchronous addr prefix tr s :
  run M addr prefix tr s ->
  (forall ev, In ev tr -> is_lifecycle ev = false /\ is_mutate ev = false) ->
  worker s = AtRecv ->
  buf (requestChan (client s)) = [] ->
  direct_all M (enqueued tr) (events s) (NewStatsdClient M addr prefix) =
    (map snd (executed tr), statsd (client s))
  /\ failures (executed tr) = consumed tr ++ buf (ErrorChan (client s)).
Proof.
  intros Hr Hall Hw Hb. pose proof (run_invariant _ _ _ _ Hr) as Hi.
  split.
  - rewrite (run_fifo _ _ _ _ Hr), Hw, Hb. cbn [inflight app].
    rewrite app_nil_r. now apply run_direct.
  - rewrite (inv_post Hi), Hw. cbn [pending_post]. rewrite app_nil_r.
    apply (inv_errs Hi).
Qed.

(** X4: the client never closes ErrorChan, not even when Close has
    returned and the worker has come to its end: in every run ErrorChan
    is open with its capacity of 100, a receive from it never reports
    a closed channel, and the application's receive is blocked exactly
    when ErrorChan is empty (or the program has panicked). *)
Theorem X4_ErrorChan_never_closed addr prefix tr s :
  run M addr prefix tr s ->
  closed (ErrorChan (client s)) = false
  /\ cap (ErrorChan (client s)) = 100
  /\ recv (ErrorChan (client s)) <> RecvClosed
  /\ (step M s AConsume = None <->
      panicked s = true \/ buf (ErrorChan (client s)) = [])
  /\ (forall e rest, panicked s = false ->
        buf (ErrorChan (client s)) = e :: rest ->
        exists s', step M s AConsume = Some (EvConsume e, s') /\
                   buf (ErrorChan (client s')) = rest /\
                   closed (ErrorChan (client s')) = false).
Proof.
  intros Hr. pose proof (run_invariant _ _ _ _ Hr) as Hi.
  pose proof (inv_err_open Hi) as Ho.
  split; [ assumption | ]. split; [ apply Hi | ]. split; [ | split ].
  - unfold recv. rewrite Ho. now destruct (buf (ErrorChan (client s))).
  - unfold step, recv. rewrite Ho.
    destruct (panicked s); [ tauto | ].
    destruct (buf (ErrorChan (client s))); split; auto; try discriminate.
    intros [ H | H ]; discriminate.
  - intros e rest Hp Hb. unfold step, recv. rewrite Hp, Hb.
    eexists. split; [ reflexivity | ]. cbn. auto.
Qed.

Lemma closes_snoc (tr : list (event error Event)) ev :
  closes (tr ++ [ev]) =
  closes tr ++ match ev with EvCloseReturn t None => [t] | _ => [] end.
Proof.
  unfold closes. rewrite flat_map_app. cbn.
  destruct ev as [ | | | | ? [ ? | ] | | | | | | | | ]; reflexivity.
Qed.

Lemma run_closes addr prefix tr s :
  run M addr prefix tr s ->
  List.length (closes tr) = if closed (requestChan (client s)) then 1 else 0.
Proof.
  induction 1 as [ | tr s a ev s' _ IH Hs ]; [ reflexivity | ].
  rewrite closes_snoc, length_app.
  step_cases Hs; cbn;
    repeat match goal with
      | H : ?x = _ |- context [?x] => rewrite H
      end;
    try destruct (closed (requestChan (client s)));
    cbn; lia.
Qed.

(** X5: Close returns nil at most once for a client: in every run the
    number of returns of Close with nil is 0 while the Work Queue is
    open and 1 once it is closed; a caller that stands between the two
    statements of Close when the queue is already closed panics on
    its [close(c.requestChan)]. *)
Theorem X5_Close_returns_nil_once addr prefix tr s :
  run M addr prefix tr s ->
  List.length (closes tr) <= 1
  /\ (closed (requestChan (client s)) = true <-> List.length (closes tr) = 1)
  /\ (forall t, closed (requestChan (client s)) = true ->
        is_closing t s = true -> panicked s = false ->
        step M s (AClose t) = Some (EvClosePanic t, panic s)).
Proof.
  intros Hr. pose proof (run_closes _ _ _ _ Hr) as Hc.
  split; [ | split ].
  - destruct (closed (requestChan (client s))); lia.
  - destruct (closed (requestChan (client s))); split; (lia || congruence).
  - intros t Hcl Ht Hp. unfold step, Close_step, close.
    now rewrite Hp, Ht, Hcl.
Qed.

Lemma run_panic_free addr prefix tr s :
  run M addr prefix tr s -> panic_free tr s /\ ~ In EvWorkerPanic tr.
Proof.
  induction 1 as [ | tr s a ev s' Hr IH Hs ].
  - split; [ reflexivity | intros [] ].
  - destruct IH as (IH & Hnw).
    pose proof (inv_err_open (run_invariant _ _ _ _ Hr)) as Ho.
    assert (Hp : panicked s = false).
    { unfold step in Hs. now destruct (panicked s). }
    unfold panic_free in IH. rewrite Hp in IH.
    assert (Hin : forall ev0, ev0 <> EvWorkerPanic ->
                    ~ In EvWorkerPanic (tr ++ [ev0])).
    { intros ev0 Hne Hin. apply in_app_or in Hin.
      destruct Hin as [ Hin | [ Hin | [] ] ]; [ now apply Hnw | now apply Hne ]. }
    unfold panic_free.
    step_cases Hs; try discriminate Ho;
      cbn [panicked panic with_client client];
      repeat match goal with
        | H : panicked _ = false |- _ => rewrite H
        end;
      (split; [ | apply Hin; discriminate ]);
      first [ rewrite existsb_app, IH; reflexivity
            | do 2 eexists; split; [ reflexivity | ];
              split; [ reflexivity | ]; split; assumption ].
Qed.

(** X6: a client panics only when it is used after a successful Close,
    and a panic ends the run: in every run the worker never panics; if
    the program has panicked the Work Queue had been closed, the panic
    is the last event of the run and no statement runs after it; while
    the Work Queue is open no step panics. *)
Theorem X6_panics_only_after_Close addr prefix tr s :
  run M addr prefix tr s ->
  ~ In EvWorkerPanic tr
  /\ (panicked s = true -> closed (requestChan (client s)) = true)
  /\ (panicked s = true <->
      exists tr0 ev, tr = tr0 ++ [ev] /\ is_panic ev = true)
  /\ (forall tr1 ev tr2, tr = tr1 ++ ev :: tr2 -> is_panic ev = true -> tr2 = [])
  /\ (panicked s = true -> forall a, step M s a = None)
  /\ (closed (requestChan (client s)) = false ->
      forall a ev s', step M s a = Some (ev, s') ->
        is_panic ev = false /\ panicked s' = false).
Proof.
  intros Hr. destruct (run_panic_free _ _ _ _ Hr) as (Hpf & Hnw).
  pose proof (inv_err_open (run_invariant _ _ _ _ Hr)) as Ho.
  unfold panic_free in Hpf.
  split; [ assumption | ]. split; [ | split; [ | split; [ | split ] ] ].
  - intros Hp. rewrite Hp in Hpf. destruct Hpf as (? & ? & _ & _ & _ & Hc). exact Hc.
  - split.
    + intros Hp. rewrite Hp in Hpf. destruct Hpf as (tr0 & ev & -> & He & _). eauto.
    + intros (tr0 & ev & -> & He).
      destruct (panicked s); [ reflexivity | ].
      rewrite existsb_app in Hpf. cbn in Hpf. rewrite He in Hpf.
      now rewrite orb_true_r in Hpf.
  - intros tr1 ev tr2 -> He.
    assert (Hex : forall l1 l2, existsb is_panic (l1 ++ ev :: l2) = true).
    { intros l1 l2. rewrite existsb_app. cbn. rewrite He. now rewrite orb_true_r. }
    destruct (panicked s).
    + destruct Hpf as (tr0 & ev0 & Heq & _ & Hnone & _).
      destruct tr2 as [ | x tr2 ] using rev_ind; [ reflexivity | ].
      change (tr1 ++ ev :: tr2 ++ [x]) with (tr1 ++ (ev :: tr2) ++ [x]) in Heq.
      rewrite app_assoc in Heq. apply app_inj_tail in Heq. destruct Heq as (<- & _).
      rewrite Hex in Hnone. discriminate.
    + rewrite Hex in Hpf. discriminate.
  - intros Hp a. unfold step. now rewrite Hp.
  - intros Hc a ev s' Hs. step_cases Hs; cbn; auto; congruence.
Qed.

(** X7: CreateSocket is not queued: whatever the Work Queue, ErrorChan
    and the worker are, a caller's CreateSocket runs at once, returns
    what the synchronous client's CreateSocket returned and leaves both
    channels and the worker as they are; so a call that was accepted
    before CreateSocket and is still buffered is run after it, on the
    state of the synchronous client that CreateSocket left. *)
Theorem X7_CreateSocket_overtakes_queued_calls s t :
  panicked s = false -> is_closing t s = false ->
  (exists s',
     step M s (ACreateSocket t) =
       Some (EvCreateSocket t (fst (statsd_CreateSocket M (statsd (client s)))), s') /\
     statsd (client s') = snd (statsd_CreateSocket M (statsd (client s))) /\
     requestChan (client s') = requestChan (client s) /\
     ErrorChan (client s') = ErrorChan (client s) /\
     worker s' = worker s /\ panicked s' = false)
  /\ (forall req rest,
        worker s = AtRecv -> buf (requestChan (client s)) = req :: rest ->
        exists s',
          exec M s [ACreateSocket t; AWorker; AWorker] =
            Some ([EvCreateSocket t (fst (statsd_CreateSocket M (statsd (client s))));
                   EvDequeue req;
                   EvExec req
                     (fst (call M req (events s)
                             (snd (statsd_CreateSocket M (statsd (client s))))))],
                  s') /\
          statsd (client s') =
            snd (call M req (events s)
                   (snd (statsd_CreateSocket M (statsd (client s))))) /\
          buf (requestChan (client s')) = rest).
Proof.
  intros Hp Ht. split.
  - unfold step, CreateSocket. rewrite Hp, Ht.
    destruct (statsd_CreateSocket M (statsd (client s))) as [err st'].
    eexists. split; [ reflexivity | ]. cbn. auto.
  - intros req rest Hw Hb.
    unfold exec, step, CreateSocket, process_step, worker_event, recv.
    rewrite Hp, Ht.
    destruct (statsd_CreateSocket M (statsd (client s))) as [e1 st1].
    cbn. rewrite Hp, Hw, Hb. cbn.
    destruct (call M req (events s) st1) as [ [ e2 | ] st2 ];
      eexists; (split; [ reflexivity | cbn; auto ]).
Qed.

(** X10: Close closes the synchronous client before the Work Queue is
    drained: neither statement of Close waits for the pipeline, and a
    call that was accepted before Close and is still buffered is run
    after the synchronous client's Close, on the state that Close
    left. *)
Theorem X10_Close_overtakes_queued_calls s t :
  panicked s = false ->
  (is_closing t s = false ->
   forall req rest,
     worker s = AtRecv -> buf (requestChan (client s)) = req :: rest ->
     exists s',
       exec M s [AClose t; AWorker; AWorker] =
         Some ([match fst (statsd_Close M (statsd (client s))) with
                | Some e => EvCloseReturn t (Some e)
                | None => EvStatsdClosed t
                end;
                EvDequeue req;
                EvExec req
                  (fst (call M req (events s)
                          (snd (statsd_Close M (statsd (client s))))))],
               s') /\
       statsd (client s') =
         snd (call M req (events s) (snd (statsd_Close M (statsd (client s))))) /\
       buf (requestChan (client s')) = rest)
  /\ (is_closing t s = true ->
      exists ev s', step M s (AClose t) = Some (ev, s') /\
        ev = (if closed (requestChan (client s))
              then EvClosePanic t
              else EvCloseReturn t None) /\
        worker s' = worker s /\
        buf (requestChan (client s')) = buf (requestChan (client s)) /\
        ErrorChan (client s') = ErrorChan (client s)).
Proof.
  intros Hp. split; intros Ht.
  - intros req rest Hw Hb.
    unfold exec, step, Close_step, process_step, worker_event, recv.
    rewrite Hp, Ht.
    destruct (statsd_Close M (statsd (client s))) as [ [ e1 | ] st1 ];
      cbn; rewrite ?Hp, Hw, Hb; cbn;
      destruct (call M req (events s) st1) as [ [ e2 | ] st2 ];
      eexists; (split; [ reflexivity | cbn; auto ]).
  - unfold step, Close_step, close. rewrite Hp, Ht.
    destruct (closed (requestChan (client s)));
      do 2 eexists; (split; [ reflexivity | cbn; auto ]).
Qed.

(** X8: when the worker waits: in every run the worker's next statement
    cannot run exactly when the program has panicked, or the worker has
    returned, or it is at its receive with the Work Queue empty and
    open, or it is at its send with 100 errors in ErrorChan. *)
Theorem X8_worker_blocked_iff addr prefix tr s :
  run M addr prefix tr s ->
  (step M s AWorker = None <->
   panicked s = true
   \/ worker s = Returned
   \/ (worker s = AtRecv /\ buf (requestChan (client s)) = [] /\
       closed (requestChan (client s)) = false)
   \/ (exists e, worker s = AtSend e /\
                 List.length (buf (ErrorChan (client s))) = 100)).
Proof.
  intros Hr. pose proof (run_invariant _ _ _ _ Hr) as Hi.
  pose proof (inv_err_open Hi) as Ho. pose proof (inv_err_cap Hi) as Hcap.
  pose proof (inv_err_len Hi) as Hlen.
  unfold step, process_step, recv, send. rewrite Ho.
  destruct (panicked s); [ tauto | ].
  destruct (worker s) as [ | req | e | ].
  - destruct (buf (requestChan (client s))) as [ | r l ];
      [ destruct (closed (requestChan (client s))) | ];
      split; try discriminate; auto.
    + intros [ H | [ H | [ (_ & _ & H) | (e & H & _) ] ] ]; discriminate.
    + intros _. right. right. left. auto.
    + intros [ H | [ H | [ (_ & H & _) | (e & H & _) ] ] ]; discriminate.
  - destruct (call M req (events s) (statsd (client s))) as [ [ e | ] st' ];
      split; try discriminate;
      intros [ H | [ H | [ (H & _) | (e' & H & _) ] ] ]; discriminate.
  - destruct (full (ErrorChan (client s))) eqn:Hf.
    + apply full_length in Hf. split; auto.
      intros _. right. right. right. exists e. split; [ reflexivity | lia ].
    + apply not_full_length in Hf. split; [ discriminate | ].
      intros [ H | [ H | [ (H & _) | (e' & _ & H) ] ] ]; try discriminate. lia.
  - split; auto.
Qed.

(** X9: the client holds a bounded backlog: in every run at most 1001
    accepted calls have not been run yet (1000 buffered and one in the
    worker's hand) and at most 101 errors returned have not been
    received by the application (100 buffered and one about to be
    sent); nothing is run that was not sent, and nothing is received
    that was not returned. *)
Theorem X9_bounded_backlog addr prefix tr s :
  run M addr prefix tr s ->
  List.length (executed tr) <= List.length (enqueued tr)
  /\ List.length (enqueued tr) <= List.length (executed tr) + 1001
  /\ List.length (consumed tr) <= List.length (failures (executed tr))
  /\ List.length (failures (executed tr)) <= List.length (consumed tr) + 101
  /\ List.length (failures (executed tr)) <= List.length (executed tr).
Proof.
  intros Hr. pose proof (run_invariant _ _ _ _ Hr) as Hi.
  pose proof (f_equal (@List.length _) (inv_fifo Hi)) as H1.
  pose proof (f_equal (@List.length _) (inv_exec Hi)) as H2.
  pose proof (f_equal (@List.length _) (inv_post Hi)) as H3.
  pose proof (f_equal (@List.length _) (inv_errs Hi)) as H4.
  pose proof (inv_req_len Hi) as L1. pose proof (inv_err_len Hi) as L2.
  rewrite !length_app, ?length_map in *.
  assert (Hin : List.length (inflight (worker s)) <= 1)
    by (destruct (worker s); cbn; lia).
  assert (Hpe : List.length (pending_post (worker s)) <= 1)
    by (destruct (worker s); cbn; lia).
  assert (Hf : forall l : list (request Event * option error),
             List.length (failures l) <= List.length l).
  { induction l as [ | [r o] l IH ]; [ cbn; lia | ].
    change ((r, o) :: l) with ([(r, o)] ++ l).
    rewrite failures_app, !length_app. destruct o; cbn; lia. }
  pose proof (Hf (executed tr)).
  repeat split; lia.
Qed.

End Proofs.

(** ** The scenarios *)

(** Three calls by one caller with a client that always succeeds: the
    client sees the three operations in the order of the calls and
    ErrorChan stays empty. *)
Example scenario_three_calls :
  exists tr s,
    exec recording (NewAsyncClient recording "localhost:8125" "app." tt) three_calls
      = Some (tr, s) /\
    statsd (client s) =
      [ReqIncr "requests" 1%Z; ReqGauge "temp" 42%Z; ReqTiming "latency" 150%Z] /\
    buf (ErrorChan (client s)) = [] /\
    buf (requestChan (client s)) = [].
Proof. do 2 eexists. split; [ vm_compute; reflexivity | ]. cbn. auto. Qed.

(** The same calls with a client that fails each of them with [E]:
    ErrorChan holds [E] three times. *)
Example scenario_three_failures :
  exists tr s,
    exec (failing "E") (NewAsyncClient (failing "E") "localhost:8125" "app." tt)
      three_failing_calls = Some (tr, s) /\
    buf (ErrorChan (client s)) = ["E"; "E"; "E"]%string /\
    worker s = AtRecv.
Proof. do 2 eexists. split; [ vm_compute; reflexivity | ]. cbn. auto. Qed.

(** Close with five calls still buffered: the five are run, in order,
    before the worker returns, and no error is posted. *)
Example scenario_close_with_five_queued :
  exists tr s,
    exec recording (NewAsyncClient recording "localhost:8125" "app." tt)
      close_with_five_queued = Some (tr, s) /\
    statsd (client s) = five_calls /\
    worker s = Returned /\
    posted tr = [].
Proof. do 2 eexists. split; [ vm_compute; reflexivity | ]. cbn. auto. Qed.

(** Two callers in Close at once, both past [statsd.Close]: the one
    that closes the queue second panics. *)
Example scenario_two_closers :
  exists s,
    exec recording (NewAsyncClient recording "localhost:8125" "app." tt) two_closers
      = Some ([EvStatsdClosed 0; EvStatsdClosed 1; EvCloseReturn 1 None;
               EvClosePanic 0], s) /\
    panicked s = true.
Proof. eexists. split; [ vm_compute; reflexivity | reflexivity ]. Qed.

(** ** The theorems at work *)

Ltac from_exec m l :=
  refine (exec_run _ _ _ _ _ _ _ m l _ _ _); vm_compute; reflexivity.

Ltac only_caller :=
  let u := fresh "u" in
  let req := fresh "req" in
  let Hin := fresh "Hin" in
  intros u req Hin; cbn in Hin;
  repeat (destruct Hin as [Hin | Hin];
          [ first [ discriminate Hin | inversion Hin; reflexivity ] | ]);
  destruct Hin.

(** C1 on three calls by one caller with a client that records them. *)
Lemma C1_three_calls_witness :
  exists tr s,
    run recording "localhost:8125" "app." tr s /\
    (forall u req, In (EvEnqueue u req) tr -> u = 0) /\
    calls_by 0 tr =
      map fst (executed tr) ++ inflight (worker s) ++ buf (requestChan (client s)) /\
    map fst (executed tr) =
      [ReqIncr "requests" 1%Z; ReqGauge "temp" 42%Z; ReqTiming "latency" 150%Z].
Proof.
  do 2 eexists.
  match goal with
  | |- ?R /\ ?H /\ _ =>
      assert (Hr : R) by from_exec tt three_calls;
      assert (Hone : H) by only_caller
  end.
  split; [ exact Hr | ]. split; [ exact Hone | ].
  split; [ | reflexivity ].
  exact (proj1 (C1_single_caller_order _ _ _ _ _ _ _ _ _ _ Hr Hone)).
Defined.

(** C1 as stated fails for SendEvent when the caller changes the event
    after the call: the call is made while the event reads "before",
    and the synchronous client, run by the worker after the change,
    gets it as "after". *)
Lemma C1_event_changed_after_call :
  exists tr s,
    exec event_reader
      (NewAsyncClient event_reader "localhost:8125" "app."
         (fun _ => "before"%string))
      event_changed_after_call = Some (tr, s) /\
    run event_reader "localhost:8125" "app." tr s /\
    calls_by 0 tr = [ReqSendEvent 7] /\
    map fst (executed tr) = [ReqSendEvent 7] /\
    snd (statsd_SendEvent event_reader 7 (fun _ => "before"%string) [])
      = ["before"%string] /\
    statsd (client s) = ["after"%string].
Proof.
  do 2 eexists.
  split; [ vm_compute; reflexivity | ].
  split; [ from_exec (fun _ : nat => "before"%string) event_changed_after_call | ].
  repeat split.
Qed.


(** C3 on a Close with five calls still buffered. *)
Lemma C3_five_queued_witness :
  exists tr2 s,
    run recording "localhost:8125" "app."
      ((map (EvEnqueue 0) five_calls ++ [EvStatsdClosed 0])
         ++ EvCloseReturn 0 None :: tr2) s /\
    worker s = Returned /\
    map fst (executed ((map (EvEnqueue 0) five_calls ++ [EvStatsdClosed 0])
                         ++ EvCloseReturn 0 None :: tr2))
      = five_calls.
Proof.
  do 2 eexists.
  match goal with
  | |- ?R /\ _ => assert (Hr : R) by from_exec tt close_with_five_queued
  end.
  split; [ exact Hr | ]. split; [ reflexivity | ].
  exact (proj1 (proj2 (proj2 (C3_close_drains _ _ _ _ _ _ _ _ _ _ _ Hr))) eq_refl).
Defined.

(** C4 on a queue filled by a thousand calls: the next call blocks. *)
Lemma C4_full_queue_witness :
  exists tr s,
    run recording "localhost:8125" "app." tr s /\
    closed (requestChan (client s)) = false /\
    List.length (buf (requestChan (client s))) = 1000 /\
    Incr "requests" 1%Z (client s) = Blocks.
Proof.
  do 2 eexists.
  match goal with
  | |- ?R /\ ?O /\ ?L /\ _ =>
      assert (Hr : R) by from_exec tt fill_queue;
      assert (Ho : O) by (vm_compute; reflexivity);
      assert (Hl : L) by (vm_compute; reflexivity)
  end.
  split; [ exact Hr | ]. split; [ exact Ho | ]. split; [ exact Hl | ].
  exact (proj2 (proj1 (C4_blocks_iff_open_and_full _ _ _ _ _ _ _ _ _
                         (ReqIncr "requests" 1%Z) Hr))
               (conj Ho Hl)).
Defined.

(** C4 as stated fails on a queue that is closed while full: the queue
    holds as many closures as its capacity, and the call does not block,
    it panics. *)
Lemma C4_closed_full_queue_panics :
  exists tr s,
    run recording "localhost:8125" "app." tr s /\
    List.length (buf (requestChan (client s))) = cap (requestChan (client s)) /\
    closed (requestChan (client s)) = true /\
    Incr "requests" 1%Z (client s) = Panics.
Proof.
  do 2 eexists.
  split; [ from_exec tt fill_queue_and_close | ].
  repeat split; vm_compute; reflexivity.
Qed.

(** C5 on a fresh client whose synchronous client fails to close. *)
Lemma C5_failing_close_witness :
  panicked (NewAsyncClient (failing "E") "localhost:8125" "app." tt) = false /\
  is_closing 0 (NewAsyncClient (failing "E") "localhost:8125" "app." tt) = false /\
  statsd_Close (failing "E")
    (statsd (client (NewAsyncClient (failing "E") "localhost:8125" "app." tt)))
    = (Some "E"%string, tt) /\
  Close (failing "E") (client (NewAsyncClient (failing "E") "localhost:8125" "app." tt))
    = CloseReturns (Some "E"%string)
        (client (NewAsyncClient (failing "E") "localhost:8125" "app." tt)).
Proof.
  split; [ reflexivity | ]. split; [ reflexivity | ]. split; [ reflexivity | ].
  exact (proj1 (C5_close_error_leaves_pipeline _ _ _ _ (failing "E")
                  (NewAsyncClient (failing "E") "localhost:8125" "app." tt) 0
                  "E"%string tt eq_refl eq_refl eq_refl)).
Defined.


(** C7 on an ErrorChan filled by a hundred failures: the worker cannot
    post the next one. *)
Lemma C7_full_ErrorChan_witness :
  exists tr s,
    run (failing "E") "localhost:8125" "app." tr s /\
    worker s = AtSend "E"%string /\
    List.length (buf (ErrorChan (client s))) = 100 /\
    step (failing "E") s AWorker = None.
Proof.
  do 2 eexists.
  match goal with
  | |- ?R /\ ?W /\ ?L /\ _ =>
      assert (Hr : R) by from_exec tt fill_ErrorChan;
      assert (Hw : W) by (vm_compute; reflexivity);
      assert (Hl : L) by (vm_compute; reflexivity)
  end.
  split; [ exact Hr | ]. split; [ exact Hw | ]. split; [ exact Hl | ].
  exact (proj1 (C7_full_ErrorChan_stalls _ _ _ _ _ _ _ _ _ _ Hr Hw Hl)).
Defined.

(** C8 on a client that was closed: Incr panics. *)
Lemma C8_closed_witness :
  exists tr s,
    run recording "localhost:8125" "app." tr s /\
    In (EvCloseReturn 0 None) tr /\
    Incr "requests" 1%Z (client s) = Panics.
Proof.
  do 2 eexists.
  match goal with
  | |- ?R /\ ?I /\ _ =>
      assert (Hr : R) by from_exec tt close_once;
      assert (Hin : I) by (right; left; reflexivity)
  end.
  split; [ exact Hr | ]. split; [ exact Hin | ].
  exact (proj1 (proj2 (C8_call_after_close_panics _ _ _ _ _ _ _ _ _ _ Hr Hin))
               (ReqIncr "requests" 1%Z)).
Defined.

(** C9 on three calls with a client that never fails. *)
Lemma C9_three_calls_witness :
  exists tr s,
    run recording "localhost:8125" "app." tr s /\
    List.length (executed tr) = 3 /\
    posted tr = [] /\
    buf (ErrorChan (client s)) = [].
Proof.
  do 2 eexists.
  match goal with
  | |- ?R /\ _ => assert (Hr : R) by from_exec tt three_calls
  end.
  split; [ exact Hr | ]. split; [ reflexivity | ].
  exact (proj2 (proj2 (proj2 (C9_success_leaves_ErrorChan _ _ _ _ recording))
                  (fun req m st => match req with
                                   | ReqIncr _ _ => eq_refl
                                   | _ => eq_refl
                                   end)
                  _ _ _ _ Hr)).
Defined.

(** C10 on a caller that has passed [statsd.Close] with five calls
    buffered and the queue open: its Close returns nil, the five calls
    stay buffered and the worker then receives and runs the first. *)
Lemma C10_five_queued_witness :
  exists tr s,
    run recording "localhost:8125" "app." tr s /\
    panicked s = false /\
    is_closing 0 s = true /\
    closed (requestChan (client s)) = false /\
    buf (requestChan (client s)) = five_calls /\
    exists s2,
      step recording s (AClose 0) = Some (EvCloseReturn 0 None, s2) /\
      buf (requestChan (client s2)) = five_calls /\
      closed (requestChan (client s2)) = true /\
      worker s2 = AtRecv /\
      exists s3 err s4,
        step recording s2 AWorker = Some (EvDequeue (ReqIncr "a" 1%Z), s3) /\
        step recording s3 AWorker = Some (EvExec (ReqIncr "a" 1%Z) err, s4).
Proof.
  do 2 eexists.
  match goal with
  | |- ?R /\ _ => assert (Hr : R) by from_exec tt five_queued_in_close
  end.
  split; [ exact Hr | ]. split; [ reflexivity | ]. split; [ reflexivity | ].
  split; [ reflexivity | ]. split; [ reflexivity | ].
  match goal with
  | |- exists s2, step _ ?s _ = _ /\ _ =>
      destruct (proj1 (C10_close_success_only_closes_queue _ _ _ _ recording
                         s 0 eq_refl eq_refl eq_refl))
        as (s2 & Hs2 & Hc2 & _ & Hw2 & _ & _ & Hq)
  end.
  exists s2. split; [ exact Hs2 | ].
  rewrite Hc2, Hw2. split; [ reflexivity | ]. split; [ reflexivity | ].
  split; [ reflexivity | ].
  exact (Hq (ReqIncr "a" 1%Z)
            [ReqDecr "b" 2%Z; ReqGauge "c" 3%Z; ReqFGauge "d" 0.5%float;
             ReqSendEvent "e"%string]
            eq_refl eq_refl).
Defined.

(** C10 as stated fails on a second Close: the synchronous client's
    close succeeds again, and Close does not return nil, it panics on
    closing the closed queue. *)
Lemma C10_second_close_panics :
  exists tr s,
    run recording "localhost:8125" "app." tr s /\
    In (EvCloseReturn 0 None) tr /\
    statsd_Close recording (statsd (client s)) = (None, statsd (client s)) /\
    Close recording (client s) = ClosePanics /\
    exists s',
      exec recording s close_once = Some ([EvStatsdClosed 0; EvClosePanic 0], s') /\
      panicked s' = true.
Proof.
  do 2 eexists.
  split; [ from_exec tt close_once | ].
  split; [ right; left; reflexivity | ].
  split; [ reflexivity | ]. split; [ reflexivity | ].
  eexists. split; vm_compute; reflexivity.
Qed.

(** X1 on two callers whose calls alternate, two of them run. *)
Lemma X1_two_callers_witness :
  exists tr s,
    run recording "localhost:8125" "app." tr s /\
    calls_by 0 tr = ran_by 0 tr ++ pending_by 0 tr /\
    ran_by 0 tr = [ReqIncr "a" 1%Z] /\
    pending_by 0 tr = [ReqDecr "a" 3%Z] /\
    ran_by 1 tr = [ReqIncr "b" 2%Z].
Proof.
  do 2 eexists.
  match goal with
  | |- ?R /\ _ => assert (Hr : R) by from_exec tt two_callers
  end.
  split; [ exact Hr | ]. split; [ | repeat split ].
  exact (proj2 (proj2 (X1_per_caller_order _ _ _ _ _ _ _ _ _ Hr)) 0).
Defined.

(** X3 on a counter and an event that the worker has run: the
    synchronous client is where the two direct calls leave it. *)
Lemma X3_event_unchanged_witness :
  exists tr s,
    run event_reader "localhost:8125" "app." tr s /\
    (forall ev, In ev tr -> is_lifecycle ev = false /\ is_mutate ev = false) /\
    worker s = AtRecv /\
    buf (requestChan (client s)) = [] /\
    enqueued tr = [ReqIncr "requests" 1%Z; ReqSendEvent 7] /\
    direct_all event_reader (enqueued tr) (events s) [] =
      (map snd (executed tr), statsd (client s)) /\
    statsd (client s) = ["requests"%string; "before"%string].
Proof.
  do 2 eexists.
  match goal with
  | |- ?R /\ ?L /\ _ =>
      assert (Hr : R)
        by from_exec (fun _ : nat => "before"%string) event_unchanged;
      assert (Hl : L)
        by (intros ev Hin; cbn in Hin;
            repeat (destruct Hin as [ <- | Hin ]; [ split; reflexivity | ]);
            destruct Hin)
  end.
  split; [ exact Hr | ]. split; [ exact Hl | ].
  split; [ reflexivity | ]. split; [ reflexivity | ].
  split; [ reflexivity | ]. split; [ | reflexivity ].
  exact (proj1 (X3_drained_is_synchronous _ _ _ _ _ _ _ _ _ Hr Hl eq_refl eq_refl)).
Defined.

(** X4 on a client that was closed and whose worker has returned. *)
Lemma X4_after_close_witness :
  exists tr s,
    run recording "localhost:8125" "app." tr s /\
    worker s = Returned /\
    closed (requestChan (client s)) = true /\
    closed (ErrorChan (client s)) = false.
Proof.
  do 2 eexists.
  match goal with
  | |- ?R /\ _ => assert (Hr : R) by from_exec tt close_with_five_queued
  end.
  split; [ exact Hr | ]. split; [ reflexivity | ]. split; [ reflexivity | ].
  exact (proj1 (X4_ErrorChan_never_closed _ _ _ _ _ _ _ _ _ Hr)).
Defined.

(** X5 on one Close. *)
Lemma X5_one_close_witness :
  exists tr s,
    run recording "localhost:8125" "app." tr s /\
    closes tr = [0] /\
    List.length (closes tr) <= 1.
Proof.
  do 2 eexists.
  match goal with
  | |- ?R /\ _ => assert (Hr : R) by from_exec tt close_once
  end.
  split; [ exact Hr | ]. split; [ reflexivity | ].
  exact (proj1 (X5_Close_returns_nil_once _ _ _ _ _ _ _ _ _ Hr)).
Defined.

(** X6 on a call after Close. *)
Lemma X6_call_after_close_witness :
  exists tr s,
    run recording "localhost:8125" "app." tr s /\
    panicked s = true /\
    closed (requestChan (client s)) = true.
Proof.
  do 2 eexists.
  match goal with
  | |- ?R /\ _ => assert (Hr : R) by from_exec tt call_after_close
  end.
  split; [ exact Hr | ]. split; [ reflexivity | ].
  exact (proj1 (proj2 (X6_panics_only_after_Close _ _ _ _ _ _ _ _ _ Hr)) eq_refl).
Defined.

(** X7 on a client with one call buffered. *)
Lemma X7_one_queued_witness :
  panicked one_queued = false /\
  is_closing 0 one_queued = false /\
  exists s',
    exec recording one_queued [ACreateSocket 0; AWorker; AWorker] =
      Some ([EvCreateSocket 0 None;
             EvDequeue (ReqIncr "requests" 1%Z);
             EvExec (ReqIncr "requests" 1%Z) None], s') /\
    statsd (client s') = [ReqIncr "requests" 1%Z] /\
    buf (requestChan (client s')) = [].
Proof.
  split; [ reflexivity | ]. split; [ reflexivity | ].
  exact (proj2 (X7_CreateSocket_overtakes_queued_calls _ _ _ _ recording
                  one_queued 0 eq_refl eq_refl)
               (ReqIncr "requests" 1%Z) [] eq_refl eq_refl).
Defined.

(** X8 on a new client: the worker waits for the first call. *)
Lemma X8_new_client_witness :
  run recording "localhost:8125" "app." []
    (NewAsyncClient recording "localhost:8125" "app." tt) /\
  step recording (NewAsyncClient recording "localhost:8125" "app." tt) AWorker = None.
Proof.
  split; [ apply run_new | ].
  apply (proj2 (X8_worker_blocked_iff _ _ _ _ _ _ _ _ _
                  (run_new recording "localhost:8125" "app." tt))).
  right. right. left. repeat split.
Defined.

(** X9 on three calls that the worker has run. *)
Lemma X9_three_calls_witness :
  exists tr s,
    run recording "localhost:8125" "app." tr s /\
    List.length (enqueued tr) = 3 /\
    List.length (enqueued tr) <= List.length (executed tr) + 1001.
Proof.
  do 2 eexists.
  match goal with
  | |- ?R /\ _ => assert (Hr : R) by from_exec tt three_calls
  end.
  split; [ exact Hr | ]. split; [ reflexivity | ].
  exact (proj1 (proj2 (X9_bounded_backlog _ _ _ _ _ _ _ _ _ Hr))).
Defined.

(** X10 on a client with one call buffered. *)
Lemma X10_one_queued_witness :
  panicked one_queued = false /\
  is_closing 0 one_queued = false /\
  exists s',
    exec recording one_queued [AClose 0; AWorker; AWorker] =
      Some ([EvStatsdClosed 0;
             EvDequeue (ReqIncr "requests" 1%Z);
             EvExec (ReqIncr "requests" 1%Z) None], s') /\
    statsd (client s') = [ReqIncr "requests" 1%Z] /\
    buf (requestChan (client s')) = [].
Proof.
  split; [ reflexivity | ]. split; [ reflexivity | ].
  exact (proj1 (X10_Close_overtakes_queued_calls _ _ _ _ recording
                  one_queued 0 eq_refl)
               eq_refl (ReqIncr "requests" 1%Z) [] eq_refl eq_refl).
Defined.
